(** * ClaimEvaluator: a shallow embedding of the encrypted claim ledger

    The contract [ClaimEvaluator] (Solidity, FHEVM) stores insurance claims
    as ciphertext handles and computes a payout through homomorphic
    operations.  This development embeds the contract's storage, its six
    entry points and the private helper [_addDelay], together with a model of
    the pieces of the FHE library the contract calls, and proves the
    properties of the specification about them. *)

From Stdlib Require Import ZArith NArith Lia String List.
From Stdlib.Strings Require Import Byte.
From stdpp Require Import base option list countable gmap sets.

Local Open Scope Z_scope.

(** ** EVM values and transaction outcomes *)

Definition address := N.
Definition bytes := list Byte.byte.

(** [uint256]: the largest value, the wrapping [add] of inline assembly, and
    the checked increment of Solidity 0.8 (which panics on overflow). *)
Definition MAX_UINT256 : N := (2 ^ 256 - 1)%N.

Definition evm_add (a b : N) : N := ((a + b) mod 2 ^ 256)%N.

Inductive failure : Type :=
| Error (reason : string)      (* require(cond, reason) and revert(reason) *)
| Panic (code : N)             (* compiler-inserted checks; 0x11 = overflow *)
| InvalidInputProof            (* FHE.fromExternal rejects the proof *)
| DivisionByZero.              (* FHE.div by the scalar 0 *)

Inductive result (A : Type) : Type :=
| Ok (a : A)
| Revert (f : failure).
Arguments Ok {A} a.
Arguments Revert {A} f.

Definition ARITHMETIC_OVERFLOW : N := 17%N.

(** ** The FHE library, as far as the contract uses it *)

(** Modelled from the spec: the input ciphertext type of the imported FHE
    library, which is not among the sources.  An input ciphertext as produced
    off-chain: its 32-byte identifier and the clear value it encrypts. *)
Record externalEuint32 : Type := mkExternal {
  ext_handle : N;
  ext_clear : Z
}.

(** Modelled from the spec: the ciphertext handle type of the imported FHE
    library.  A handle is an opaque value with identity and provenance: the
    operation and the input handles that produced it.  The backend is
    input-handle-deterministic, so a handle is modelled by the term that
    built it.  The contract never inspects a handle; only [FHE.decrypt], the
    decryption oracle, reads the clear value behind it. *)
Inductive euint32 : Type :=
| Uninitialized                      (* bytes32(0), the value of an unwritten slot *)
| Verified (e : externalEuint32)     (* FHE.fromExternal *)
| Trivial (v : Z)                    (* FHE.asEuint32 *)
| FheSub (a b : euint32)
| FheMul (a b : euint32)
| FheDiv (a : euint32) (d : Z).

Global Instance externalEuint32_eq_dec : EqDecision externalEuint32.
Proof. solve_decision. Defined.

Global Instance euint32_eq_dec : EqDecision euint32.
Proof. solve_decision. Defined.

Fixpoint euint32_to_tree (h : euint32) : gen_tree Z :=
  match h with
  | Uninitialized => GenNode 0 []
  | Verified e => GenNode 1 [GenLeaf (Z.of_N (ext_handle e)); GenLeaf (ext_clear e)]
  | Trivial v => GenNode 2 [GenLeaf v]
  | FheSub a b => GenNode 3 [euint32_to_tree a; euint32_to_tree b]
  | FheMul a b => GenNode 4 [euint32_to_tree a; euint32_to_tree b]
  | FheDiv a d => GenNode 5 [euint32_to_tree a; GenLeaf d]
  end.

Fixpoint euint32_of_tree (t : gen_tree Z) : euint32 :=
  match t with
  | GenNode 1 [GenLeaf h; GenLeaf v] => Verified (mkExternal (Z.to_N h) v)
  | GenNode 2 [GenLeaf v] => Trivial v
  | GenNode 3 [a; b] => FheSub (euint32_of_tree a) (euint32_of_tree b)
  | GenNode 4 [a; b] => FheMul (euint32_of_tree a) (euint32_of_tree b)
  | GenNode 5 [a; GenLeaf d] => FheDiv (euint32_of_tree a) d
  | _ => Uninitialized
  end.

Lemma euint32_of_to_tree (h : euint32) : euint32_of_tree (euint32_to_tree h) = h.
Proof.
  induction h as [| [i c] | v | a IHa b IHb | a IHa b IHb | a IHa d]; simpl.
  - reflexivity.
  - now rewrite N2Z.id.
  - reflexivity.
  - now rewrite IHa, IHb.
  - now rewrite IHa, IHb.
  - now rewrite IHa.
Qed.

Global Instance euint32_countable : Countable euint32 :=
  inj_countable' euint32_to_tree euint32_of_tree euint32_of_to_tree.

(** Modelled from the spec: the operations of the imported FHE library that
    the contract calls ([asEuint32], [sub], [mul], [div] by a plaintext
    constant, [allow]) and the decryption oracle, over the unsigned 32-bit
    domain. *)
Module FHE.

(** euint32 arithmetic is unchecked: results wrap modulo 2^32. *)
Definition wrap32 (z : Z) : Z := z mod 2 ^ 32.

Definition asEuint32 (v : Z) : euint32 := Trivial v.

(** The binary operators replace an uninitialised operand by an encrypted
    zero before calling the backend. *)
Definition initialized (a : euint32) : euint32 :=
  match a with
  | Uninitialized => asEuint32 0
  | _ => a
  end.

Definition sub (a b : euint32) : euint32 := FheSub (initialized a) (initialized b).

Definition mul (a b : euint32) : euint32 := FheMul (initialized a) (initialized b).

(** Division takes a plaintext divisor. *)
Definition div (a : euint32) (b : Z) : result euint32 :=
  if b =? 0 then Revert DivisionByZero else Ok (FheDiv (initialized a) b).

(** The decryption oracle. *)
Fixpoint decrypt (h : euint32) : Z :=
  match h with
  | Uninitialized => 0
  | Verified e => wrap32 (ext_clear e)
  | Trivial v => wrap32 v
  | FheSub a b => wrap32 (decrypt a - decrypt b)
  | FheMul a b => wrap32 (decrypt a * decrypt b)
  | FheDiv a d => decrypt a / d
  end.

(** Access grants: (handle, principal) pairs, additive and never revoked. *)
Definition allow (h : euint32) (p : address) (acl : gset (euint32 * address))
  : gset (euint32 * address) := {[ (h, p) ]} ∪ acl.

Definition isAllowed (h : euint32) (p : address) (acl : gset (euint32 * address)) : bool :=
  bool_decide ((h, p) ∈ acl).

End FHE.

(** ** Contract storage *)

Record EncryptedClaim : Type := mkClaim {
  lossAmount : euint32;
  riskLevel : euint32;
  payout : euint32;
  exists_ : bool
}.

Inductive Event : Type :=
| ClaimSubmitted (claimId : N) (claimant : address)
| ClaimEvaluated (claimId : N).

(** The two storage variables of the contract, the access grants it has
    issued and the events it has emitted. *)
Record State : Type := mkState {
  claims : gmap N EncryptedClaim;
  claimCounter : N;
  acl : gset (euint32 * address);
  logs : list Event
}.

(** An unwritten mapping slot reads as the all-zero struct. *)
Definition emptyClaim : EncryptedClaim :=
  mkClaim Uninitialized Uninitialized Uninitialized false.

Definition claimAt (s : State) (claimId : N) : EncryptedClaim :=
  default emptyClaim (claims s !! claimId).

Definition initial : State := mkState ∅ 0%N ∅ [].

(** ** A state-and-revert monad for the external functions *)

Definition M (A : Type) : Type := State -> result (A * State).

Definition ret {A} (a : A) : M A := fun s => Ok (a, s).

Definition bind {A B} (m : M A) (k : A -> M B) : M B :=
  fun s => match m s with
           | Ok (a, s') => k a s'
           | Revert f => Revert f
           end.

Notation "x <-- m ;; k" := (bind m (fun x => k))
  (at level 200, m at level 99, k at level 200, only parsing).
Notation "m ;;; k" := (bind m (fun _ => k))
  (at level 200, k at level 200, only parsing).

Definition fail {A} (f : failure) : M A := fun _ => Revert f.

Definition gets {A} (f : State -> A) : M A := fun s => Ok (f s, s).

Definition modify (f : State -> State) : M unit := fun s => Ok (tt, f s).

Definition lift {A} (r : result A) : M A :=
  fun s => match r with Ok a => Ok (a, s) | Revert f => Revert f end.

Definition require (cond : bool) (reason : string) : M unit :=
  if cond then ret tt else fail (Error reason).

Definition emit (e : Event) : M unit :=
  modify (fun s => mkState (claims s) (claimCounter s) (acl s) (logs s ++ [e])).

Definition grant (h : euint32) (p : address) : M unit :=
  modify (fun s => mkState (claims s) (claimCounter s) (FHE.allow h p (acl s)) (logs s)).

(** [claims[claimId] = c] *)
Definition storeClaim (claimId : N) (c : EncryptedClaim) : M unit :=
  modify (fun s => mkState (<[claimId := c]> (claims s)) (claimCounter s) (acl s) (logs s)).

(** [claim.payout = h] through the storage pointer [claim = claims[claimId]] *)
Definition storePayout (claimId : N) (h : euint32) : M unit :=
  modify (fun s =>
    let c := claimAt s claimId in
    mkState (<[claimId := mkClaim (lossAmount c) (riskLevel c) h (exists_ c)]> (claims s))
            (claimCounter s) (acl s) (logs s)).

(** [claimCounter++] with the overflow check of Solidity 0.8 *)
Definition incrementCounter : M unit :=
  fun s =>
    if (claimCounter s <? MAX_UINT256)%N
    then Ok (tt, mkState (claims s) (claimCounter s + 1)%N (acl s) (logs s))
    else Revert (Panic ARITHMETIC_OVERFLOW).

(** ** The rate-limit delay *)

Definition DELAY_ITERATIONS : N := 200%N.

(** The body of [for (i = 0; i < DELAY_ITERATIONS; i++) sum := add(sum, i)],
    unrolled [n] more times from loop variable [i]. *)
Fixpoint delayLoop (n : nat) (i sum : N) : N :=
  match n with
  | O => sum
  | S n' => delayLoop n' (i + 1)%N (evm_add sum i)
  end.

Definition _addDelay : result unit :=
  let sum := delayLoop (N.to_nat DELAY_ITERATIONS) 0%N 0%N in
  if (sum =? 0)%N && (0 <? DELAY_ITERATIONS)%N
  then Revert (Error "Delay calculation error")
  else Ok tt.

(** ** The contract *)

(** The constants of the contract.  Only [PAYOUT_FULL] is used by its code:
    the payout percent is computed from the encrypted risk level, not looked
    up. *)
Definition RISK_LEVEL_LOW : Z := 1.
Definition RISK_LEVEL_MEDIUM : Z := 2.
Definition RISK_LEVEL_HIGH : Z := 3.
Definition PAYOUT_FULL : Z := 10000.
Definition PAYOUT_HIGH : Z := 8000.
Definition PAYOUT_LOW : Z := 5000.

(** The failure of [require(claims[claimId].exists, ...)]. *)
Definition NotFound : failure := Error "Claim does not exist".

(** The clear payout as the specification writes it, over the integers. *)
Definition payoutPercentOf (riskLevel : Z) : Z := 10000 - (riskLevel - 1) * 2500.

Definition spec_payout (lossAmount riskLevel : Z) : Z :=
  lossAmount * payoutPercentOf riskLevel / 10000.

(** The clear payout as the homomorphic pipeline computes it, step by step in
    the 32-bit domain. *)
Definition payoutValue (lossAmount riskLevel : Z) : Z :=
  let riskLevelMinusOne := FHE.wrap32 (riskLevel - 1) in
  let riskMultiplier := FHE.wrap32 (riskLevelMinusOne * 2500) in
  let payoutPercent := FHE.wrap32 (10000 - riskMultiplier) in
  let payoutNumerator := FHE.wrap32 (lossAmount * payoutPercent) in
  payoutNumerator / 10000.

(** A deployment used in the worked scenarios: the contract's address, two
    callers and an input verifier that accepts proofs that are not empty. *)
Definition contractAddress : address := 4096%N.
Definition alice : address := 1%N.
Definition bob : address := 2%N.
Definition nonEmptyProof (_ : address) (_ : externalEuint32) (inputProof : bytes) : bool :=
  match inputProof with
  | [] => false
  | _ :: _ => true
  end.
Definition someProof : bytes := [Byte.x01].

(** The state-changing calls a transaction can make. *)
Inductive Call : Type :=
| SubmitClaim (lossAmountEuint32 riskLevelEuint32 : externalEuint32) (inputProof : bytes)
| EvaluateClaim (claimId : N).

(** A submission by [who] of the clear values [loss] and [risk], encrypted
    under the input handles [2 * k] and [2 * k + 1]. *)
Definition lossInput (k : N) (loss : Z) : externalEuint32 := mkExternal (2 * k) loss.
Definition riskInput (k : N) (risk : Z) : externalEuint32 := mkExternal (2 * k + 1) risk.
Definition submitTx (who : address) (k : N) (loss risk : Z) : address * Call :=
  (who, SubmitClaim (lossInput k loss) (riskInput k risk) someProof).

(** The claim ids announced by the [ClaimSubmitted] events of a log, in the
    order of emission. *)
Definition submittedId (e : Event) : option N :=
  match e with
  | ClaimSubmitted claimId _ => Some claimId
  | ClaimEvaluated _ => None
  end.

Definition submittedIds (l : list Event) : list N := omap submittedId l.

Section ClaimEvaluator.

(** The address of the deployed contract, and the check that
    [FHE.fromExternal] makes of an input ciphertext against its proof. *)
Variable this : address.
Variable verifyInput : address -> externalEuint32 -> bytes -> bool.

(** Modelled from the spec: [FHE.fromExternal] of the imported library
    returns the handle of a verified input and fails on an invalid proof. *)
Definition fromExternal (sender : address) (e : externalEuint32) (inputProof : bytes)
  : M euint32 :=
  if verifyInput sender e inputProof then ret (Verified e) else fail InvalidInputProof.

(** Modelled from the spec: [FHE.allowThis] and [FHE.allow] of the imported
    library record a grant to the contract itself and to a principal. *)
Definition allowThis (h : euint32) : M unit := grant h this.

Definition allow (h : euint32) (p : address) : M unit := grant h p.

Definition submitClaim (sender : address)
    (lossAmountEuint32 riskLevelEuint32 : externalEuint32) (inputProof : bytes) : M N :=
  encryptedLossAmount <-- fromExternal sender lossAmountEuint32 inputProof ;;
  encryptedRiskLevel <-- fromExternal sender riskLevelEuint32 inputProof ;;
  claimId <-- gets claimCounter ;;
  incrementCounter ;;;
  storeClaim claimId
    (mkClaim encryptedLossAmount encryptedRiskLevel (FHE.asEuint32 0) true) ;;;
  allowThis encryptedLossAmount ;;;
  allow encryptedLossAmount sender ;;;
  allowThis encryptedRiskLevel ;;;
  allow encryptedRiskLevel sender ;;;
  emit (ClaimSubmitted claimId sender) ;;;
  ret claimId.

Definition evaluateClaim (sender : address) (claimId : N) : M unit :=
  ex <-- gets (fun s => exists_ (claimAt s claimId)) ;;
  require ex "Claim does not exist" ;;;
  claim <-- gets (fun s => claimAt s claimId) ;;
  let riskLevelMinusOne := FHE.sub (riskLevel claim) (FHE.asEuint32 1) in
  lift _addDelay ;;;
  let riskMultiplier := FHE.mul riskLevelMinusOne (FHE.asEuint32 2500) in
  lift _addDelay ;;;
  let payoutPercent := FHE.sub (FHE.asEuint32 PAYOUT_FULL) riskMultiplier in
  lift _addDelay ;;;
  let payoutNumerator := FHE.mul (lossAmount claim) payoutPercent in
  lift _addDelay ;;;
  calculatedPayout <-- lift (FHE.div payoutNumerator 10000) ;;
  storePayout claimId calculatedPayout ;;;
  allowThis calculatedPayout ;;;
  allow calculatedPayout sender ;;;
  emit (ClaimEvaluated claimId).

(** The view functions read the state and cannot change it. *)
Definition view {A} (s : State) (claimId : N) (f : EncryptedClaim -> A) : result A :=
  if exists_ (claimAt s claimId)
  then Ok (f (claimAt s claimId))
  else Revert (Error "Claim does not exist").

Definition getLossAmount (s : State) (claimId : N) : result euint32 :=
  view s claimId lossAmount.

Definition getRiskLevel (s : State) (claimId : N) : result euint32 :=
  view s claimId riskLevel.

Definition getPayout (s : State) (claimId : N) : result euint32 :=
  view s claimId payout.

Definition getClaim (s : State) (claimId : N) : result (euint32 * euint32 * euint32) :=
  view s claimId (fun claim => (lossAmount claim, riskLevel claim, payout claim)).

Definition getClaimCount (s : State) : N := claimCounter s.

Definition claimExists (s : State) (claimId : N) : bool := exists_ (claimAt s claimId).

(** ** Transactions

    A call that reverts commits nothing; a call that returns commits the
    state it reached. *)

Definition commit {A} (r : result (A * State)) (s : State) : State :=
  match r with
  | Ok (_, s') => s'
  | Revert _ => s
  end.

Definition exec (tx : address * Call) (s : State) : State :=
  match tx with
  | (sender, SubmitClaim l r p) => commit (submitClaim sender l r p s) s
  | (sender, EvaluateClaim claimId) => commit (evaluateClaim sender claimId s) s
  end.

Definition run (txs : list (address * Call)) (s : State) : State :=
  fold_left (fun s tx => exec tx s) txs s.

Definition reachable (s : State) : Prop := exists txs, s = run txs initial.

(** ** Derived notions used in the statements *)

(** The handle [evaluateClaim] builds for a claim, read off its body. *)
Definition computedPayout (c : EncryptedClaim) : euint32 :=
  FheDiv
    (FheMul (FHE.initialized (lossAmount c))
       (FheSub (Trivial PAYOUT_FULL)
          (FheMul (FheSub (FHE.initialized (riskLevel c)) (Trivial 1)) (Trivial 2500))))
    10000.

(** The grants [submitClaim] issues, in order. *)
Definition submitGrants (sender : address) (l r : euint32) (a : gset (euint32 * address))
  : gset (euint32 * address) :=
  FHE.allow r sender (FHE.allow r this (FHE.allow l sender (FHE.allow l this a))).

(** The ledger invariant: the claims that exist are those below the counter. *)
Definition ledger_inv (s : State) : Prop :=
  forall claimId, exists_ (claimAt s claimId) = true <-> (claimId < claimCounter s)%N.

(** Every grant is on an input handle or on the result of a division. *)
Definition granted_shape (h : euint32) : Prop :=
  match h with
  | Verified _ | FheDiv _ _ => True
  | _ => False
  end.

Definition acl_inv (s : State) : Prop :=
  forall h p, (h, p) ∈ acl s -> granted_shape h.

(** The inputs of a stored claim are the verified input handles. *)
Definition inputs_inv (s : State) : Prop :=
  forall claimId,
    exists_ (claimAt s claimId) = true ->
    exists l r,
      lossAmount (claimAt s claimId) = Verified l /\
      riskLevel (claimAt s claimId) = Verified r.

Definition evaluates (claimId : N) (tx : address * Call) : Prop :=
  match tx with
  | (_, EvaluateClaim j) => j = claimId
  | _ => False
  end.

(** ** Equations of the external functions *)

Lemma submitClaim_eq sender l r p s :
  submitClaim sender l r p s =
  if verifyInput sender l p then
    if verifyInput sender r p then
      if (claimCounter s <? MAX_UINT256)%N then
        Ok (claimCounter s,
            mkState
              (<[claimCounter s := mkClaim (Verified l) (Verified r) (FHE.asEuint32 0) true]>
                 (claims s))
              (claimCounter s + 1)%N
              (submitGrants sender (Verified l) (Verified r) (acl s))
              (logs s ++ [ClaimSubmitted (claimCounter s) sender]))
      else Revert (Panic ARITHMETIC_OVERFLOW)
    else Revert InvalidInputProof
  else Revert InvalidInputProof.
Proof.
  unfold submitClaim, bind, fromExternal, ret, fail.
  destruct (verifyInput sender l p); [| reflexivity].
  destruct (verifyInput sender r p); [| reflexivity].
  unfold gets, incrementCounter.
  destruct (claimCounter s <? MAX_UINT256)%N; reflexivity.
Qed.

Lemma delayLoop_closed_form n :
  forall i sum,
    (2 * sum + 2 * N.of_nat n * i + N.of_nat n * (N.of_nat n - 1) < 2 ^ 257)%N ->
    (2 * delayLoop n i sum = 2 * sum + 2 * N.of_nat n * i + N.of_nat n * (N.of_nat n - 1))%N.
Proof.
  induction n as [| n IH]; intros i sum Hb.
  - simpl. lia.
  - cbn [delayLoop]. unfold evm_add.
    assert (Hpow : (2 ^ 257 = 2 * 2 ^ 256)%N) by reflexivity.
    rewrite N.mod_small by nia.
    rewrite IH by nia. nia.
Qed.

Lemma delayLoop_200 : delayLoop (N.to_nat DELAY_ITERATIONS) 0%N 0%N = 19900%N.
Proof.
  assert (H := delayLoop_closed_form (N.to_nat DELAY_ITERATIONS) 0%N 0%N).
  rewrite N2Nat.id in H. unfold DELAY_ITERATIONS in *.
  assert (Hb : (2 * 0 + 2 * 200 * 0 + 200 * (200 - 1) < 2 ^ 257)%N) by (vm_compute; reflexivity).
  specialize (H Hb). lia.
Qed.

Lemma _addDelay_ok : _addDelay = Ok tt.
Proof. unfold _addDelay. rewrite delayLoop_200. reflexivity. Qed.

Lemma evaluateClaim_eq sender claimId s :
  evaluateClaim sender claimId s =
  if exists_ (claimAt s claimId) then
    let c := claimAt s claimId in
    Ok (tt,
        mkState
          (<[claimId := mkClaim (lossAmount c) (riskLevel c) (computedPayout c) true]>
             (claims s))
          (claimCounter s)
          (FHE.allow (computedPayout c) sender (FHE.allow (computedPayout c) this (acl s)))
          (logs s ++ [ClaimEvaluated claimId]))
  else Revert (Error "Claim does not exist").
Proof.
  unfold evaluateClaim, bind, gets, require.
  destruct (exists_ (claimAt s claimId)) eqn:Hex; [| reflexivity].
  unfold ret. rewrite _addDelay_ok.
  unfold lift, FHE.div, storePayout, allowThis, allow, grant, emit, modify.
  cbn. rewrite Hex. reflexivity.
Qed.

(** ** What a committed transaction does to the state *)

Definition afterSubmit (sender : address) (l r : externalEuint32) (s : State) : State :=
  mkState
    (<[claimCounter s := mkClaim (Verified l) (Verified r) (FHE.asEuint32 0) true]> (claims s))
    (claimCounter s + 1)%N
    (submitGrants sender (Verified l) (Verified r) (acl s))
    (logs s ++ [ClaimSubmitted (claimCounter s) sender]).

Definition afterEvaluate (sender : address) (claimId : N) (s : State) : State :=
  let c := claimAt s claimId in
  mkState
    (<[claimId := mkClaim (lossAmount c) (riskLevel c) (computedPayout c) true]> (claims s))
    (claimCounter s)
    (FHE.allow (computedPayout c) sender (FHE.allow (computedPayout c) this (acl s)))
    (logs s ++ [ClaimEvaluated claimId]).

Lemma submitClaim_Ok sender l r p s claimId s' :
  submitClaim sender l r p s = Ok (claimId, s') ->
  verifyInput sender l p = true /\ verifyInput sender r p = true /\
  (claimCounter s < MAX_UINT256)%N /\
  claimId = claimCounter s /\ s' = afterSubmit sender l r s.
Proof.
  rewrite submitClaim_eq.
  destruct (verifyInput sender l p); [| discriminate].
  destruct (verifyInput sender r p); [| discriminate].
  destruct (claimCounter s <? MAX_UINT256)%N eqn:Hlt; [| discriminate].
  intros H. injection H as <- <-. apply N.ltb_lt in Hlt. auto.
Qed.

Lemma submitClaim_valid sender l r p s :
  verifyInput sender l p = true -> verifyInput sender r p = true ->
  (claimCounter s < MAX_UINT256)%N ->
  submitClaim sender l r p s = Ok (claimCounter s, afterSubmit sender l r s).
Proof.
  intros Hl Hr Hlt. rewrite submitClaim_eq, Hl, Hr.
  apply N.ltb_lt in Hlt. rewrite Hlt. reflexivity.
Qed.

Lemma evaluateClaim_Ok sender claimId s s' :
  evaluateClaim sender claimId s = Ok (tt, s') ->
  exists_ (claimAt s claimId) = true /\ s' = afterEvaluate sender claimId s.
Proof.
  rewrite evaluateClaim_eq.
  destruct (exists_ (claimAt s claimId)); [| discriminate].
  intros H. injection H as <-. auto.
Qed.

Lemma evaluateClaim_existing sender claimId s :
  exists_ (claimAt s claimId) = true ->
  evaluateClaim sender claimId s = Ok (tt, afterEvaluate sender claimId s).
Proof. intros H. rewrite evaluateClaim_eq, H. reflexivity. Qed.

Lemma evaluateClaim_missing sender claimId s :
  exists_ (claimAt s claimId) = false ->
  evaluateClaim sender claimId s = Revert (Error "Claim does not exist").
Proof. intros H. rewrite evaluateClaim_eq, H. reflexivity. Qed.

Lemma submitClaim_invalid_proof sender l r p s :
  verifyInput sender l p = false \/ verifyInput sender r p = false ->
  submitClaim sender l r p s = Revert InvalidInputProof /\
  exec (sender, SubmitClaim l r p) s = s.
Proof.
  intros H.
  assert (E : submitClaim sender l r p s = Revert InvalidInputProof).
  { rewrite submitClaim_eq.
    destruct H as [-> | ->]; [reflexivity |].
    destruct (verifyInput sender l p); reflexivity. }
  split; [exact E |]. simpl. now rewrite E.
Qed.

(** Every transaction either commits nothing, or is a submission below the
    counter bound, or is the evaluation of an existing claim. *)
Lemma exec_cases tx s :
  exec tx s = s \/
  (exists sender l r p,
      tx = (sender, SubmitClaim l r p) /\ (claimCounter s < MAX_UINT256)%N /\
      exec tx s = afterSubmit sender l r s) \/
  (exists sender claimId,
      tx = (sender, EvaluateClaim claimId) /\ exists_ (claimAt s claimId) = true /\
      exec tx s = afterEvaluate sender claimId s).
Proof.
  destruct tx as [sender [l r p | claimId]]; simpl.
  - destruct (submitClaim sender l r p s) as [[i s'] |] eqn:E; [| now left].
    apply submitClaim_Ok in E as (_ & _ & Hlt & _ & ->).
    right; left. now exists sender, l, r, p.
  - destruct (evaluateClaim sender claimId s) as [[[] s'] |] eqn:E; [| now left].
    apply evaluateClaim_Ok in E as (Hex & ->).
    right; right. now exists sender, claimId.
Qed.

Lemma claimAt_afterSubmit sender l r s j :
  claimAt (afterSubmit sender l r s) j =
  if decide (claimCounter s = j)
  then mkClaim (Verified l) (Verified r) (FHE.asEuint32 0) true
  else claimAt s j.
Proof.
  unfold claimAt, afterSubmit; simpl. rewrite lookup_insert.
  destruct (decide (claimCounter s = j)); reflexivity.
Qed.

Lemma claimAt_afterEvaluate sender claimId s j :
  claimAt (afterEvaluate sender claimId s) j =
  if decide (claimId = j)
  then mkClaim (lossAmount (claimAt s claimId)) (riskLevel (claimAt s claimId))
               (computedPayout (claimAt s claimId)) true
  else claimAt s j.
Proof.
  unfold afterEvaluate. unfold claimAt at 1; simpl. rewrite lookup_insert.
  destruct (decide (claimId = j)); reflexivity.
Qed.

Lemma run_app txs1 txs2 s : run (txs1 ++ txs2) s = run txs2 (run txs1 s).
Proof. unfold run. apply fold_left_app. Qed.

Lemma run_cons tx txs s : run (tx :: txs) s = run txs (exec tx s).
Proof. reflexivity. Qed.

Lemma reachable_initial : reachable initial.
Proof. now exists []. Qed.

Lemma reachable_exec tx s : reachable s -> reachable (exec tx s).
Proof. intros [txs ->]. exists (txs ++ [tx]). now rewrite run_app. Qed.

Lemma reachable_run txs s : reachable s -> reachable (run txs s).
Proof. intros [txs0 ->]. exists (txs0 ++ txs). now rewrite run_app. Qed.

(** Induction over the reachable states. *)
Lemma reachable_ind (P : State -> Prop) :
  P initial ->
  (forall tx s, reachable s -> P s -> P (exec tx s)) ->
  forall s, reachable s -> P s.
Proof.
  intros Hinit Hstep s [txs ->].
  induction txs as [| tx txs IH] using rev_ind.
  - exact Hinit.
  - rewrite run_app. simpl. apply Hstep; [now exists txs | exact IH].
Qed.

(** ** Invariants *)

Lemma ledger_inv_initial : ledger_inv initial.
Proof.
  intros j. unfold claimAt, initial; simpl. rewrite lookup_empty; simpl.
  split; [discriminate | lia].
Qed.

Lemma ledger_inv_exec tx s : ledger_inv s -> ledger_inv (exec tx s).
Proof.
  intros Hinv.
  destruct (exec_cases tx s) as [-> | [(a & l & r & p & _ & Hlt & ->) | (a & i & _ & Hex & ->)]].
  - exact Hinv.
  - intros j. rewrite claimAt_afterSubmit. simpl.
    destruct (decide (claimCounter s = j)) as [<- | Hne]; simpl.
    + split; [lia | reflexivity].
    + rewrite (Hinv j). lia.
  - intros j. rewrite claimAt_afterEvaluate. simpl.
    destruct (decide (i = j)) as [<- | Hne]; simpl.
    + apply Hinv in Hex. tauto.
    + apply Hinv.
Qed.

Lemma ledger_inv_run txs s : ledger_inv s -> ledger_inv (run txs s).
Proof.
  revert s; induction txs as [| tx txs IH]; intros s Hinv; [exact Hinv |].
  rewrite run_cons. apply IH, ledger_inv_exec, Hinv.
Qed.

Lemma reachable_ledger_inv s : reachable s -> ledger_inv s.
Proof. intros [txs ->]. apply ledger_inv_run, ledger_inv_initial. Qed.

Lemma acl_inv_exec tx s : acl_inv s -> acl_inv (exec tx s).
Proof.
  intros Hinv.
  destruct (exec_cases tx s) as [-> | [(a & l & r & p & _ & _ & ->) | (a & i & _ & _ & ->)]].
  - exact Hinv.
  - intros h q. unfold afterSubmit, submitGrants, FHE.allow; simpl.
    rewrite !elem_of_union, !elem_of_singleton.
    intros [E | [E | [E | [E | Hin]]]];
      try (injection E as -> _; exact I).
    eapply Hinv, Hin.
  - intros h q. unfold afterEvaluate, FHE.allow; simpl.
    rewrite !elem_of_union, !elem_of_singleton.
    intros [E | [E | Hin]]; try (injection E as -> _; exact I).
    eapply Hinv, Hin.
Qed.

Lemma reachable_acl_inv s : reachable s -> acl_inv s.
Proof.
  apply reachable_ind.
  - intros h q Hin. unfold initial in Hin; simpl in Hin. set_solver.
  - intros tx s0 _ IH. now apply acl_inv_exec.
Qed.

Lemma acl_inv_run txs s : acl_inv s -> acl_inv (run txs s).
Proof.
  revert s; induction txs as [| tx txs IH]; intros s Hinv; [exact Hinv |].
  rewrite run_cons. apply IH, acl_inv_exec, Hinv.
Qed.

Lemma acl_inv_zero_ungranted s p :
  acl_inv s -> FHE.isAllowed (FHE.asEuint32 0) p (acl s) = false.
Proof.
  intros Hinv. unfold FHE.isAllowed. apply bool_decide_eq_false.
  intros Hin. exact (Hinv _ _ Hin).
Qed.

(** ** Monotonicity and frame lemmas for one transaction and for runs *)

Lemma claimCounter_exec tx s : (claimCounter s <= claimCounter (exec tx s))%N.
Proof.
  destruct (exec_cases tx s) as [-> | [(a & l & r & p & _ & _ & ->) | (a & i & _ & _ & ->)]];
    simpl; lia.
Qed.

Lemma claimCounter_run txs s : (claimCounter s <= claimCounter (run txs s))%N.
Proof.
  revert s; induction txs as [| tx txs IH]; intros s; [simpl; lia |].
  rewrite run_cons. etransitivity; [apply claimCounter_exec | apply IH].
Qed.

Lemma exists_exec tx s j :
  exists_ (claimAt s j) = true -> exists_ (claimAt (exec tx s) j) = true.
Proof.
  intros Hj.
  destruct (exec_cases tx s) as [-> | [(a & l & r & p & _ & _ & ->) | (a & i & _ & _ & ->)]].
  - exact Hj.
  - rewrite claimAt_afterSubmit. destruct (decide (claimCounter s = j)); [reflexivity | exact Hj].
  - rewrite claimAt_afterEvaluate. destruct (decide (i = j)); [reflexivity | exact Hj].
Qed.

Lemma exists_run txs s j :
  exists_ (claimAt s j) = true -> exists_ (claimAt (run txs s) j) = true.
Proof.
  revert s; induction txs as [| tx txs IH]; intros s Hj; [exact Hj |].
  rewrite run_cons. apply IH, exists_exec, Hj.
Qed.

Lemma inputs_exec tx s j :
  ledger_inv s -> exists_ (claimAt s j) = true ->
  lossAmount (claimAt (exec tx s) j) = lossAmount (claimAt s j) /\
  riskLevel (claimAt (exec tx s) j) = riskLevel (claimAt s j).
Proof.
  intros Hinv Hj.
  destruct (exec_cases tx s) as [-> | [(a & l & r & p & _ & _ & ->) | (a & i & _ & _ & ->)]].
  - auto.
  - rewrite claimAt_afterSubmit.
    destruct (decide (claimCounter s = j)) as [<- | Hne]; [| auto].
    apply Hinv in Hj. lia.
  - rewrite claimAt_afterEvaluate.
    destruct (decide (i = j)) as [<- | Hne]; auto.
Qed.

Lemma inputs_run txs s j :
  ledger_inv s -> exists_ (claimAt s j) = true ->
  lossAmount (claimAt (run txs s) j) = lossAmount (claimAt s j) /\
  riskLevel (claimAt (run txs s) j) = riskLevel (claimAt s j).
Proof.
  revert s; induction txs as [| tx txs IH]; intros s Hinv Hj; [auto |].
  rewrite run_cons.
  destruct (inputs_exec tx s j Hinv Hj) as [El Er].
  destruct (IH (exec tx s) (ledger_inv_exec tx s Hinv) (exists_exec tx s j Hj)) as [El' Er'].
  split; congruence.
Qed.

Lemma payout_exec tx s j :
  ledger_inv s -> exists_ (claimAt s j) = true -> ~ evaluates j tx ->
  payout (claimAt (exec tx s) j) = payout (claimAt s j).
Proof.
  intros Hinv Hj Hne.
  destruct (exec_cases tx s) as [-> | [(a & l & r & p & _ & _ & ->) | (a & i & -> & _ & ->)]].
  - reflexivity.
  - rewrite claimAt_afterSubmit.
    destruct (decide (claimCounter s = j)) as [<- | Hn]; [| reflexivity].
    apply Hinv in Hj. lia.
  - rewrite claimAt_afterEvaluate.
    destruct (decide (i = j)) as [E | Hn]; [| reflexivity].
    now elim Hne.
Qed.

Lemma payout_run txs s j :
  ledger_inv s -> exists_ (claimAt s j) = true -> Forall (fun tx => ~ evaluates j tx) txs ->
  payout (claimAt (run txs s) j) = payout (claimAt s j).
Proof.
  revert s; induction txs as [| tx txs IH]; intros s Hinv Hj Hall; [reflexivity |].
  rewrite run_cons. inversion Hall as [| ? ? Htx Htxs]; subst.
  rewrite IH by (auto using ledger_inv_exec, exists_exec).
  now apply payout_exec.
Qed.

(** ** The clear value behind the computed payout *)

Lemma decrypt_initialized h : FHE.decrypt (FHE.initialized h) = FHE.decrypt h.
Proof. destruct h; reflexivity. Qed.

Lemma decrypt_computedPayout c :
  FHE.decrypt (computedPayout c) =
  payoutValue (FHE.decrypt (lossAmount c)) (FHE.decrypt (riskLevel c)).
Proof.
  unfold computedPayout, payoutValue. cbn [FHE.decrypt].
  rewrite !decrypt_initialized. reflexivity.
Qed.

Lemma payoutValue_risk L R :
  R = 1 \/ R = 2 \/ R = 3 ->
  payoutValue L R = FHE.wrap32 (L * payoutPercentOf R) / 10000.
Proof. intros [-> | [-> | ->]]; reflexivity. Qed.

(** Where the product fits in 32 bits the pipeline computes the formula. *)
Lemma payoutValue_no_overflow L R :
  R = 1 \/ R = 2 \/ R = 3 ->
  0 <= L * payoutPercentOf R < 2 ^ 32 ->
  payoutValue L R = spec_payout L R.
Proof.
  intros HR Hb. rewrite payoutValue_risk by exact HR.
  unfold FHE.wrap32, spec_payout. now rewrite Z.mod_small.
Qed.

Lemma getPayout_afterEvaluate sender claimId s :
  exists_ (claimAt s claimId) = true ->
  getPayout (afterEvaluate sender claimId s) claimId = Ok (computedPayout (claimAt s claimId)).
Proof.
  intros _. unfold getPayout, view. rewrite claimAt_afterEvaluate.
  destruct (decide (claimId = claimId)); [reflexivity | congruence].
Qed.

Lemma inputs_inv_exec tx s : inputs_inv s -> inputs_inv (exec tx s).
Proof.
  intros Hinv.
  destruct (exec_cases tx s) as [-> | [(a & l & r & p & _ & _ & ->) | (a & i & _ & Hex & ->)]].
  - exact Hinv.
  - intros j. rewrite claimAt_afterSubmit.
    destruct (decide (claimCounter s = j)); [simpl; eauto | apply Hinv].
  - intros j. rewrite claimAt_afterEvaluate.
    destruct (decide (i = j)); [simpl; intros _; now apply Hinv | apply Hinv].
Qed.

Lemma reachable_inputs_inv s : reachable s -> inputs_inv s.
Proof.
  apply reachable_ind.
  - intros j. unfold claimAt, initial; simpl. rewrite lookup_empty. discriminate.
  - intros tx s0 _ IH. now apply inputs_inv_exec.
Qed.

Lemma wrap32_range z : 0 <= FHE.wrap32 z < 2 ^ 32.
Proof. unfold FHE.wrap32. apply Z.mod_pos_bound. reflexivity. Qed.

Lemma reachable_loss_range s claimId :
  reachable s -> exists_ (claimAt s claimId) = true ->
  0 <= FHE.decrypt (lossAmount (claimAt s claimId)) < 2 ^ 32.
Proof.
  intros Hreach Hex.
  destruct (reachable_inputs_inv s Hreach claimId Hex) as (l & r & -> & _).
  apply wrap32_range.
Qed.

(** The pipeline agrees with the formula over the integers exactly when the
    product of loss amount and payout percent fits in 32 bits. *)
Lemma payoutValue_matches_iff L R :
  R = 1 \/ R = 2 \/ R = 3 -> 0 <= L ->
  (payoutValue L R = spec_payout L R <-> L * payoutPercentOf R < 2 ^ 32).
Proof.
  intros HR HL.
  rewrite payoutValue_risk by exact HR.
  assert (Hpct : 0 < payoutPercentOf R)
    by (destruct HR as [-> | [-> | ->]]; reflexivity).
  unfold spec_payout, FHE.wrap32.
  set (P := L * payoutPercentOf R).
  assert (HP : 0 <= P) by (unfold P; nia).
  change (2 ^ 32) with 4294967296.
  split.
  - intros E. destruct (Z_lt_ge_dec P 4294967296) as [Hlt | Hge]; [exact Hlt | exfalso].
    pose proof (Z.mod_pos_bound P 4294967296 ltac:(lia)) as Hm.
    destruct (Z_lt_ge_dec P 4294970000) as [Hs | Hb].
    + assert (Hmod : P mod 4294967296 = P - 4294967296).
      { symmetry. apply (Z.mod_unique P 4294967296 1); lia. }
      rewrite Hmod, Z.div_small in E by lia.
      assert (429496 <= P / 10000) by (apply Z.div_le_lower_bound; lia).
      lia.
    + assert (429497 <= P / 10000) by (apply Z.div_le_lower_bound; lia).
      assert (P mod 4294967296 / 10000 < 429497) by (apply Z.div_lt_upper_bound; lia).
      lia.
  - intros Hlt. now rewrite Z.mod_small by lia.
Qed.

(** ** Properties of the specification *)

(** C1.  For a stored claim whose risk level is 1, 2 or 3, [evaluateClaim]
    returns and stores a payout whose clear value is the pipeline's
    [payoutValue]; that value is
    floor(lossAmount * (10000 - (riskLevel - 1) * 2500) / 10000) exactly
    when the product lossAmount * payoutPercent is below 2^32, and differs
    from it for every larger loss amount. *)
Theorem evaluateClaim_payout_formula s sender claimId :
  reachable s ->
  claimExists s claimId = true ->
  (let R := FHE.decrypt (riskLevel (claimAt s claimId)) in R = 1 \/ R = 2 \/ R = 3) ->
  exists s' h,
    evaluateClaim sender claimId s = Ok (tt, s') /\
    getPayout s' claimId = Ok h /\
    let L := FHE.decrypt (lossAmount (claimAt s claimId)) in
    let R := FHE.decrypt (riskLevel (claimAt s claimId)) in
    FHE.decrypt h = payoutValue L R /\
    (FHE.decrypt h = spec_payout L R <-> L * payoutPercentOf R < 2 ^ 32).
Proof.
  intros Hreach Hex HR. unfold claimExists in Hex.
  exists (afterEvaluate sender claimId s), (computedPayout (claimAt s claimId)).
  split; [now apply evaluateClaim_existing |].
  split; [now apply getPayout_afterEvaluate |].
  cbv zeta. rewrite decrypt_computedPayout. split; [reflexivity |].
  apply payoutValue_matches_iff; [exact HR |].
  now apply reachable_loss_range.
Qed.

(** C2.  On a fresh ledger, a verifying submission of loss amount
    1,000,000,000 and risk level 2 returns claim id 0; evaluating claim 0
    then stores a payout that decrypts to 98,710, because the product
    1,000,000,000 * 7500 wraps modulo 2^32.  The formula over the integers
    gives 750,000,000. *)
Theorem scenario_medium_risk_wraps sender caller l r p :
  verifyInput sender l p = true ->
  verifyInput sender r p = true ->
  ext_clear l = 1000000000 ->
  ext_clear r = 2 ->
  exists s1 s2 h,
    submitClaim sender l r p initial = Ok (0%N, s1) /\
    evaluateClaim caller 0%N s1 = Ok (tt, s2) /\
    getPayout s2 0%N = Ok h /\
    FHE.decrypt h = 98710 /\
    spec_payout 1000000000 2 = 750000000.
Proof.
  intros Hl Hr El Er.
  assert (Hex : exists_ (claimAt (afterSubmit sender l r initial) 0%N) = true).
  { rewrite claimAt_afterSubmit. reflexivity. }
  exists (afterSubmit sender l r initial),
         (afterEvaluate caller 0%N (afterSubmit sender l r initial)),
         (computedPayout (claimAt (afterSubmit sender l r initial) 0%N)).
  split; [apply (submitClaim_valid sender l r p initial Hl Hr); reflexivity |].
  split; [now apply evaluateClaim_existing |].
  split; [now apply getPayout_afterEvaluate |].
  split; [| reflexivity].
  rewrite decrypt_computedPayout, claimAt_afterSubmit. simpl.
  rewrite El, Er. reflexivity.
Qed.

(** C3.  For a stored claim with risk level 1, [evaluateClaim] stores a
    payout whose clear value is (lossAmount * 10000 mod 2^32) / 10000.  It
    equals the loss amount exactly when the loss amount is at most 429,496;
    for every larger loss amount of the 32-bit domain the product wraps and
    the payout is smaller than the loss amount. *)
Theorem evaluateClaim_low_risk s sender claimId :
  reachable s ->
  claimExists s claimId = true ->
  FHE.decrypt (riskLevel (claimAt s claimId)) = 1 ->
  exists s' h,
    evaluateClaim sender claimId s = Ok (tt, s') /\
    getPayout s' claimId = Ok h /\
    let L := FHE.decrypt (lossAmount (claimAt s claimId)) in
    FHE.decrypt h = FHE.wrap32 (L * 10000) / 10000 /\
    (FHE.decrypt h = L <-> L <= 429496) /\
    (429496 < L -> FHE.decrypt h < L).
Proof.
  intros Hreach Hex HR. unfold claimExists in Hex.
  exists (afterEvaluate sender claimId s), (computedPayout (claimAt s claimId)).
  split; [now apply evaluateClaim_existing |].
  split; [now apply getPayout_afterEvaluate |].
  cbv zeta. rewrite decrypt_computedPayout, HR.
  pose proof (reachable_loss_range s claimId Hreach Hex) as HL.
  set (L := FHE.decrypt (lossAmount (claimAt s claimId))) in *.
  pose proof (payoutValue_matches_iff L 1 (or_introl eq_refl) (proj1 HL)) as Hiff.
  assert (Hspec : spec_payout L 1 = L).
  { unfold spec_payout, payoutPercentOf. simpl. apply Z.div_mul. lia. }
  assert (Hpct : L * payoutPercentOf 1 = L * 10000) by reflexivity.
  rewrite Hspec, Hpct in Hiff. change (2 ^ 32) with 4294967296 in Hiff.
  assert (Hval : payoutValue L 1 = FHE.wrap32 (L * 10000) / 10000)
    by (rewrite payoutValue_risk by auto; reflexivity).
  split; [exact Hval |].
  split; [rewrite Hiff; lia |].
  intros Hbig. rewrite Hval.
  pose proof (wrap32_range (L * 10000)) as Hw. change (2 ^ 32) with 4294967296 in Hw.
  assert (FHE.wrap32 (L * 10000) / 10000 < 429497) by (apply Z.div_lt_upper_bound; lia).
  lia.
Qed.


(** C4.  A submission whose proof verifies (made while the counter is below
    the largest uint256, which the specification assumes) returns the claim
    count before the call, and the count after the call is the count before
    plus one.  The counter never decreases afterwards, so every later
    submission returns a strictly larger id: ids are sequential, strictly
    increasing and never reused. *)
Theorem submitClaim_sequential_ids sender l r p s :
  verifyInput sender l p = true ->
  verifyInput sender r p = true ->
  (getClaimCount s < MAX_UINT256)%N ->
  exists s',
    submitClaim sender l r p s = Ok (getClaimCount s, s') /\
    getClaimCount s' = (getClaimCount s + 1)%N /\
    (forall txs sender' l' r' p' claimId' s'',
        submitClaim sender' l' r' p' (run txs s') = Ok (claimId', s'') ->
        (getClaimCount s < claimId')%N).
Proof.
  intros Hl Hr Hlt. exists (afterSubmit sender l r s).
  split; [now apply submitClaim_valid |].
  split; [reflexivity |].
  intros txs sender' l' r' p' claimId' s'' Hsub.
  apply submitClaim_Ok in Hsub as (_ & _ & _ & -> & _).
  pose proof (claimCounter_run txs (afterSubmit sender l r s)) as Hmono.
  unfold getClaimCount. simpl in Hmono. lia.
Qed.

(** C5.  In every state reachable by submissions and evaluations,
    [claimExists(id)] is true exactly for the ids below [getClaimCount()],
    and no later transaction resets an exists flag that is true. *)
Theorem claimExists_iff_below_count s :
  reachable s ->
  (forall claimId, claimExists s claimId = true <-> (0 <= claimId < getClaimCount s)%N) /\
  (forall claimId txs,
      claimExists s claimId = true -> claimExists (run txs s) claimId = true).
Proof.
  intros Hreach. split.
  - intros claimId. unfold claimExists, getClaimCount.
    rewrite (reachable_ledger_inv s Hreach claimId). lia.
  - intros claimId txs. apply exists_run.
Qed.

(** C6.  [evaluateClaim] and the four getters return normally when the
    claim exists and fail with NotFound when it does not; ids at or beyond
    the counter do not exist; and a call of [evaluateClaim] that fails, for
    whatever reason, commits the state it started from. *)
Theorem not_found_iff_missing s sender claimId :
  (claimExists s claimId = true ->
     (exists s', evaluateClaim sender claimId s = Ok (tt, s')) /\
     (exists h, getLossAmount s claimId = Ok h) /\
     (exists h, getRiskLevel s claimId = Ok h) /\
     (exists h, getPayout s claimId = Ok h) /\
     (exists t, getClaim s claimId = Ok t)) /\
  (claimExists s claimId = false ->
     evaluateClaim sender claimId s = Revert NotFound /\
     getLossAmount s claimId = Revert NotFound /\
     getRiskLevel s claimId = Revert NotFound /\
     getPayout s claimId = Revert NotFound /\
     getClaim s claimId = Revert NotFound) /\
  (reachable s -> (getClaimCount s <= claimId)%N -> claimExists s claimId = false) /\
  (forall f, evaluateClaim sender claimId s = Revert f ->
     exec (sender, EvaluateClaim claimId) s = s).
Proof.
  unfold claimExists, getLossAmount, getRiskLevel, getPayout, getClaim, view.
  split; [| split; [| split]].
  - intros Hex. rewrite evaluateClaim_eq, Hex. repeat split; eauto.
  - intros Hex. rewrite Hex. repeat split. now apply evaluateClaim_missing.
  - intros Hreach Hge.
    destruct (exists_ (claimAt s claimId)) eqn:Hex; [| reflexivity].
    apply (reachable_ledger_inv s Hreach) in Hex. unfold getClaimCount in Hge. lia.
  - intros f Hf. simpl. now rewrite Hf.
Qed.

(** C7.  Evaluation is repeatable: if a claim is evaluated in a reachable
    state, any transactions follow, and the claim is evaluated again, the two
    stored payouts decrypt to the same value, which is a function of the
    clear loss amount and risk level of the claim. *)
Theorem evaluateClaim_repeatable s a b claimId txs s1 s3 :
  reachable s ->
  evaluateClaim a claimId s = Ok (tt, s1) ->
  evaluateClaim b claimId (run txs s1) = Ok (tt, s3) ->
  exists h1 h3,
    getPayout s1 claimId = Ok h1 /\
    getPayout s3 claimId = Ok h3 /\
    FHE.decrypt h1 = FHE.decrypt h3 /\
    FHE.decrypt h1 =
      payoutValue (FHE.decrypt (lossAmount (claimAt s claimId)))
                  (FHE.decrypt (riskLevel (claimAt s claimId))).
Proof.
  intros Hreach H1 H3.
  apply evaluateClaim_Ok in H1 as (Hex & ->).
  apply evaluateClaim_Ok in H3 as (Hex3 & ->).
  set (s1 := afterEvaluate a claimId s) in *.
  assert (Hinv1 : ledger_inv s1).
  { apply reachable_ledger_inv. apply (reachable_exec (a, EvaluateClaim claimId)) in Hreach.
    simpl in Hreach. rewrite evaluateClaim_existing in Hreach by exact Hex. exact Hreach. }
  assert (Hex1 : exists_ (claimAt s1 claimId) = true).
  { unfold s1. rewrite claimAt_afterEvaluate.
    destruct (decide (claimId = claimId)); [reflexivity | congruence]. }
  destruct (inputs_run txs s1 claimId Hinv1 Hex1) as [El Er].
  assert (El1 : lossAmount (claimAt s1 claimId) = lossAmount (claimAt s claimId)).
  { unfold s1. rewrite claimAt_afterEvaluate.
    destruct (decide (claimId = claimId)); [reflexivity | congruence]. }
  assert (Er1 : riskLevel (claimAt s1 claimId) = riskLevel (claimAt s claimId)).
  { unfold s1. rewrite claimAt_afterEvaluate.
    destruct (decide (claimId = claimId)); [reflexivity | congruence]. }
  exists (computedPayout (claimAt s claimId)),
         (computedPayout (claimAt (run txs s1) claimId)).
  split; [now apply getPayout_afterEvaluate |].
  split; [now apply getPayout_afterEvaluate |].
  rewrite !decrypt_computedPayout. rewrite El, Er, El1, Er1. auto.
Qed.

(** C8.  A successful [evaluateClaim(id)] changes only the payout of claim
    [id]: its loss amount, risk level and exists flag, every other slot of
    the claims mapping, and the counter are as before. *)
Theorem evaluateClaim_frame sender claimId s s' :
  evaluateClaim sender claimId s = Ok (tt, s') ->
  lossAmount (claimAt s' claimId) = lossAmount (claimAt s claimId) /\
  riskLevel (claimAt s' claimId) = riskLevel (claimAt s claimId) /\
  exists_ (claimAt s' claimId) = exists_ (claimAt s claimId) /\
  (forall other, other <> claimId -> claims s' !! other = claims s !! other) /\
  (forall other, claimExists s' other = claimExists s other) /\
  getClaimCount s' = getClaimCount s.
Proof.
  intros H. apply evaluateClaim_Ok in H as (Hex & ->).
  unfold claimExists. rewrite !claimAt_afterEvaluate.
  destruct (decide (claimId = claimId)) as [_ | Hn]; [| congruence]. simpl.
  repeat split; auto.
  - intros other Hne. apply lookup_insert_ne. congruence.
  - intros other. rewrite claimAt_afterEvaluate.
    destruct (decide (claimId = other)) as [<- | Hn]; simpl; auto.
Qed.

(** C9.  The failure branch of [_addDelay] is unreachable: for 200
    iterations the checked sum is 19900, which is not zero, so [_addDelay]
    returns normally and [evaluateClaim] never aborts with the delay error. *)
Theorem addDelay_never_fails :
  delayLoop (N.to_nat DELAY_ITERATIONS) 0%N 0%N = 19900%N /\
  _addDelay = Ok tt /\
  (forall sender claimId s,
      evaluateClaim sender claimId s <> Revert (Error "Delay calculation error")).
Proof.
  split; [exact delayLoop_200 |]. split; [exact _addDelay_ok |].
  intros sender claimId s. rewrite evaluateClaim_eq.
  destruct (exists_ (claimAt s claimId)); discriminate.
Qed.

(** C10.  A submission issues exactly four grants, on the loss amount and
    risk level handles, to the contract and to the submitter.  The payout
    handle it stores is the encrypted zero, and until the claim is first
    evaluated [getPayout] returns that handle and no principal holds a grant
    on it. *)
Theorem submitClaim_payout_ungranted s sender l r p claimId s' :
  reachable s ->
  submitClaim sender l r p s = Ok (claimId, s') ->
  acl s' = {[ (Verified r, sender) ]} ∪ ({[ (Verified r, this) ]} ∪
            ({[ (Verified l, sender) ]} ∪ ({[ (Verified l, this) ]} ∪ acl s))) /\
  (forall txs,
      Forall (fun tx => ~ evaluates claimId tx) txs ->
      getPayout (run txs s') claimId = Ok (FHE.asEuint32 0) /\
      forall q, FHE.isAllowed (FHE.asEuint32 0) q (acl (run txs s')) = false).
Proof.
  intros Hreach Hsub.
  pose proof Hsub as Hsub'.
  apply submitClaim_Ok in Hsub as (_ & _ & _ & -> & ->).
  split; [reflexivity |].
  assert (Hreach' : reachable (afterSubmit sender l r s)).
  { apply (reachable_exec (sender, SubmitClaim l r p)) in Hreach.
    simpl in Hreach. now rewrite Hsub' in Hreach. }
  assert (Hnew : claimAt (afterSubmit sender l r s) (claimCounter s) =
                 mkClaim (Verified l) (Verified r) (FHE.asEuint32 0) true).
  { rewrite claimAt_afterSubmit.
    destruct (decide (claimCounter s = claimCounter s)); [reflexivity | congruence]. }
  assert (Hex : exists_ (claimAt (afterSubmit sender l r s) (claimCounter s)) = true)
    by now rewrite Hnew.
  intros txs Hall. split.
  - unfold getPayout, view.
    rewrite (exists_run txs _ _ Hex).
    rewrite (payout_run txs _ _ (reachable_ledger_inv _ Hreach') Hex Hall).
    now rewrite Hnew.
  - intros q. apply acl_inv_zero_ungranted, acl_inv_run, reachable_acl_inv, Hreach'.
Qed.

(** ** Further properties of the contract *)

Lemma acl_exec tx s : acl s ⊆ acl (exec tx s).
Proof.
  destruct (exec_cases tx s) as [-> | [(a & l & r & p & _ & _ & ->) | (a & i & _ & _ & ->)]].
  - reflexivity.
  - unfold afterSubmit, submitGrants, FHE.allow; simpl. set_solver.
  - unfold afterEvaluate, FHE.allow; simpl. set_solver.
Qed.

Lemma logs_exec tx s : logs s `prefix_of` logs (exec tx s).
Proof.
  destruct (exec_cases tx s) as [-> | [(a & l & r & p & _ & _ & ->) | (a & i & _ & _ & ->)]].
  - reflexivity.
  - simpl. now apply prefix_app_r.
  - simpl. now apply prefix_app_r.
Qed.

Lemma claims_dom_exec tx s : dom (claims s) ⊆ dom (claims (exec tx s)).
Proof.
  destruct (exec_cases tx s) as [-> | [(a & l & r & p & _ & _ & ->) | (a & i & _ & _ & ->)]].
  - reflexivity.
  - simpl. rewrite dom_insert_L. set_solver.
  - simpl. rewrite dom_insert_L. set_solver.
Qed.

Lemma history_grows_acl txs s : acl s ⊆ acl (run txs s).
Proof.
  revert s. induction txs as [| tx txs IH]; intros s; [reflexivity |].
  rewrite run_cons. etransitivity; [apply acl_exec | apply IH].
Qed.

(** X1.  A submission in which either input fails verification against the
    proof reverts with the library's proof failure and commits nothing: the
    whole state, and so the claim count, is as before. *)
Theorem submitClaim_rejects_invalid_proof sender l r p s :
  verifyInput sender l p = false \/ verifyInput sender r p = false ->
  submitClaim sender l r p s = Revert InvalidInputProof /\
  exec (sender, SubmitClaim l r p) s = s /\
  getClaimCount (exec (sender, SubmitClaim l r p) s) = getClaimCount s.
Proof.
  intros H. destruct (submitClaim_invalid_proof sender l r p s H) as [E Hs].
  split; [exact E |]. split; [exact Hs |]. now rewrite Hs.
Qed.

(** X2.  When the counter holds the largest uint256, a submission whose
    inputs verify reverts with the arithmetic panic of the checked increment
    and commits nothing: the counter never wraps to zero and no stored claim
    is overwritten. *)
Theorem submitClaim_counter_overflow sender l r p s :
  claimCounter s = MAX_UINT256 ->
  verifyInput sender l p = true ->
  verifyInput sender r p = true ->
  submitClaim sender l r p s = Revert (Panic ARITHMETIC_OVERFLOW) /\
  exec (sender, SubmitClaim l r p) s = s.
Proof.
  intros Hmax Hl Hr.
  assert (E : submitClaim sender l r p s = Revert (Panic ARITHMETIC_OVERFLOW)).
  { rewrite submitClaim_eq, Hl, Hr, Hmax. now rewrite N.ltb_irrefl. }
  split; [exact E |]. simpl. now rewrite E.
Qed.

(** X3.  In every reachable state the claims mapping has a stored entry for
    exactly the ids below the counter, so the number of stored claims equals
    [getClaimCount()], and the counter is within uint256. *)
Theorem claims_domain_is_count s :
  reachable s ->
  (forall claimId, is_Some (claims s !! claimId) <-> (claimId < getClaimCount s)%N) /\
  size (claims s) = N.to_nat (getClaimCount s) /\
  (getClaimCount s <= MAX_UINT256)%N.
Proof.
  unfold getClaimCount. revert s. apply reachable_ind.
  - split; [| split].
    + intros j. simpl. rewrite lookup_empty. split; [intros [? ?]; discriminate | lia].
    + reflexivity.
    + simpl. lia.
  - intros tx s Hreach (Hdom & Hsize & Hmax).
    destruct (exec_cases tx s) as [-> | [(a & l & r & p & _ & Hlt & ->) | (a & i & _ & Hex & ->)]].
    + auto.
    + assert (Hfresh : claims s !! claimCounter s = None).
      { destruct (claims s !! claimCounter s) eqn:E; [| reflexivity].
        assert (Hs : is_Some (claims s !! claimCounter s)) by (rewrite E; eauto).
        apply Hdom in Hs. lia. }
      simpl. split; [| split].
      * intros j. rewrite lookup_insert.
        destruct (decide (claimCounter s = j)) as [<- | Hne].
        -- split; [lia | eauto].
        -- rewrite Hdom. lia.
      * rewrite map_size_insert_None by exact Hfresh. rewrite Hsize. lia.
      * lia.
    + assert (Hsome : is_Some (claims s !! i)).
      { unfold claimAt in Hex. destruct (claims s !! i); [eauto | discriminate]. }
      simpl. split; [| split].
      * intros j. rewrite lookup_insert.
        destruct (decide (i = j)) as [<- | Hne].
        -- split; [intros _; now apply Hdom | eauto].
        -- apply Hdom.
      * rewrite map_size_insert_Some by exact Hsome. exact Hsize.
      * exact Hmax.
Qed.

(** X4.  In every reachable state the [ClaimSubmitted] events of the log
    announce, in order, the ids 0, 1, ..., count - 1: one event per stored
    claim, none repeated and none skipped. *)
Theorem submitted_events_are_sequential s :
  reachable s ->
  submittedIds (logs s) = N.of_nat <$> seq 0 (N.to_nat (getClaimCount s)).
Proof.
  unfold getClaimCount. revert s. apply reachable_ind.
  - reflexivity.
  - intros tx s _ IH.
    destruct (exec_cases tx s) as [-> | [(a & l & r & p & _ & _ & ->) | (a & i & _ & _ & ->)]].
    + exact IH.
    + simpl. unfold submittedIds in *. rewrite omap_app, IH. simpl.
      replace (N.to_nat (claimCounter s + 1)) with (S (N.to_nat (claimCounter s))) by lia.
      rewrite seq_S, fmap_app. simpl. now rewrite N2Nat.id.
    + simpl. unfold submittedIds in *. rewrite omap_app, IH. simpl.
      now rewrite app_nil_r.
Qed.

(** X5.  History only grows: whatever transactions run, every grant issued
    before is still present, the earlier event log is a prefix of the later
    one, no stored entry disappears and the counter does not decrease. *)
Theorem history_only_grows txs s :
  acl s ⊆ acl (run txs s) /\
  logs s `prefix_of` logs (run txs s) /\
  dom (claims s) ⊆ dom (claims (run txs s)) /\
  (getClaimCount s <= getClaimCount (run txs s))%N.
Proof.
  revert s. induction txs as [| tx txs IH]; intros s.
  - simpl. repeat split; reflexivity.
  - rewrite run_cons. destruct (IH (exec tx s)) as (Ha & Hl & Hd & Hc).
    split; [| split; [| split]].
    + etransitivity; [apply acl_exec | exact Ha].
    + etransitivity; [apply logs_exec | exact Hl].
    + etransitivity; [apply claims_dom_exec | exact Hd].
    + unfold getClaimCount in *. pose proof (claimCounter_exec tx s). lia.
Qed.

Lemma computedPayout_inputs c c' :
  lossAmount c = lossAmount c' -> riskLevel c = riskLevel c' ->
  computedPayout c = computedPayout c'.
Proof. unfold computedPayout. now intros -> ->. Qed.

(** X6.  In every reachable state the stored payout of a claim tells whether
    the claim was evaluated: if a [ClaimEvaluated] event for the id is in the
    log, the payout is the handle computed from the claim's inputs; if none
    is, the payout is still the encrypted zero of submission.  No
    [ClaimEvaluated] event names an id that does not exist. *)
Theorem payout_reflects_evaluation s claimId :
  reachable s ->
  (claimExists s claimId = false -> ClaimEvaluated claimId ∉ logs s) /\
  (claimExists s claimId = true ->
     ((ClaimEvaluated claimId ∈ logs s) /\
      payout (claimAt s claimId) = computedPayout (claimAt s claimId)) \/
     ((ClaimEvaluated claimId ∉ logs s) /\
      payout (claimAt s claimId) = FHE.asEuint32 0)).
Proof.
  unfold claimExists. revert s. apply reachable_ind.
  - split.
    + intros _ Hin. simpl in Hin. now apply elem_of_nil in Hin.
    + unfold claimAt; simpl. rewrite lookup_empty. discriminate.
  - intros tx s Hreach (Hno & Hyes).
    destruct (exec_cases tx s) as [-> | [(a & l & r & p & _ & _ & ->) | (a & i & _ & Hex & ->)]].
    + auto.
    + rewrite claimAt_afterSubmit. simpl.
      destruct (decide (claimCounter s = claimId)) as [<- | Hne]; simpl.
      * split; [discriminate |]. intros _. right. split; [| reflexivity].
        rewrite elem_of_app, list_elem_of_singleton. intros [Hin | Heq]; [| discriminate].
        revert Hin. apply Hno.
        destruct (exists_ (claimAt s (claimCounter s))) eqn:E; [| reflexivity].
        apply (reachable_ledger_inv s Hreach) in E. lia.
      * split.
        -- intros Hf. rewrite elem_of_app, list_elem_of_singleton.
           intros [Hin | Heq]; [now apply Hno | discriminate].
        -- intros Ht. destruct (Hyes Ht) as [[Hin Hp] | [Hnin Hp]].
           ++ left. split; [| exact Hp]. rewrite elem_of_app. now left.
           ++ right. split; [| exact Hp].
              rewrite elem_of_app, list_elem_of_singleton.
              intros [Hin | Heq]; [now apply Hnin | discriminate].
    + rewrite claimAt_afterEvaluate. simpl.
      destruct (decide (i = claimId)) as [<- | Hne]; simpl.
      * split; [discriminate |]. intros _. left. split.
        -- rewrite elem_of_app, list_elem_of_singleton. now right.
        -- now apply computedPayout_inputs.
      * split.
        -- intros Hf. rewrite elem_of_app, list_elem_of_singleton.
           intros [Hin | Heq]; [now apply Hno | congruence].
        -- intros Ht. destruct (Hyes Ht) as [[Hin Hp] | [Hnin Hp]].
           ++ left. split; [| exact Hp]. rewrite elem_of_app. now left.
           ++ right. split; [| exact Hp].
              rewrite elem_of_app, list_elem_of_singleton.
              intros [Hin | Heq]; [now apply Hnin | congruence].
Qed.

(** X7.  A successful evaluation adds exactly two grants, both on the payout
    handle it stored: one to the contract and one to the caller.  Every other
    principal, the original submitter included when someone else evaluates,
    holds after the call exactly the grants it held before. *)
Theorem evaluateClaim_grants_caller_only sender claimId s s' :
  evaluateClaim sender claimId s = Ok (tt, s') ->
  exists h,
    getPayout s' claimId = Ok h /\
    FHE.isAllowed h this (acl s') = true /\
    FHE.isAllowed h sender (acl s') = true /\
    (forall h' q,
        (h', q) ∈ acl s' <-> (h', q) ∈ acl s \/ (h' = h /\ (q = this \/ q = sender))).
Proof.
  clear verifyInput.
  intros H. apply evaluateClaim_Ok in H as (Hex & ->).
  exists (computedPayout (claimAt s claimId)).
  split; [now apply getPayout_afterEvaluate |].
  unfold FHE.isAllowed, afterEvaluate, FHE.allow; simpl.
  split; [apply bool_decide_eq_true; set_solver |].
  split; [apply bool_decide_eq_true; set_solver |].
  intros h' q. rewrite !elem_of_union, !elem_of_singleton.
  split.
  - intros [E | [E | Hin]]; [injection E as -> -> | injection E as -> -> |]; auto.
  - intros [Hin | [-> [-> | ->]]]; auto.
Qed.

(** X8.  Once a claim is submitted from a reachable state, in every later
    state the getters return the two input handles of the submission, and the
    submitter and the contract still hold their grants on both. *)
Theorem submitter_keeps_access s sender l r p claimId s' txs :
  reachable s ->
  submitClaim sender l r p s = Ok (claimId, s') ->
  getLossAmount (run txs s') claimId = Ok (Verified l) /\
  getRiskLevel (run txs s') claimId = Ok (Verified r) /\
  FHE.isAllowed (Verified l) sender (acl (run txs s')) = true /\
  FHE.isAllowed (Verified l) this (acl (run txs s')) = true /\
  FHE.isAllowed (Verified r) sender (acl (run txs s')) = true /\
  FHE.isAllowed (Verified r) this (acl (run txs s')) = true.
Proof.
  intros Hreach Hsub. pose proof Hsub as Hsub'.
  apply submitClaim_Ok in Hsub as (_ & _ & _ & -> & ->).
  set (s1 := afterSubmit sender l r s).
  assert (Hreach1 : reachable s1).
  { apply (reachable_exec (sender, SubmitClaim l r p)) in Hreach.
    simpl in Hreach. now rewrite Hsub' in Hreach. }
  assert (Hnew : claimAt s1 (claimCounter s) =
                 mkClaim (Verified l) (Verified r) (FHE.asEuint32 0) true).
  { unfold s1. rewrite claimAt_afterSubmit.
    destruct (decide (claimCounter s = claimCounter s)); [reflexivity | congruence]. }
  assert (Hex : exists_ (claimAt s1 (claimCounter s)) = true) by now rewrite Hnew.
  destruct (inputs_run txs s1 _ (reachable_ledger_inv _ Hreach1) Hex) as [El Er].
  rewrite Hnew in El, Er. simpl in El, Er.
  pose proof (history_grows_acl txs s1) as Hacl.
  unfold getLossAmount, getRiskLevel, view.
  rewrite (exists_run txs _ _ Hex), El, Er.
  split; [reflexivity |]. split; [reflexivity |].
  unfold FHE.isAllowed.
  repeat split; apply bool_decide_eq_true, Hacl;
    unfold s1, afterSubmit, submitGrants, FHE.allow; simpl; set_solver.
Qed.


Lemma payoutPercent_any_risk R :
  FHE.wrap32 (10000 - FHE.wrap32 (FHE.wrap32 (R - 1) * 2500)) = FHE.wrap32 (12500 - 2500 * R).
Proof.
  unfold FHE.wrap32.
  rewrite Zmult_mod_idemp_l, Zminus_mod_idemp_r.
  f_equal. lia.
Qed.

Lemma payoutValue_any_risk L R :
  payoutValue L R = FHE.wrap32 (L * FHE.wrap32 (12500 - 2500 * R)) / 10000.
Proof. unfold payoutValue. cbv zeta. now rewrite payoutPercent_any_risk. Qed.

Lemma payoutValue_bound L R : 0 <= payoutValue L R <= 429496.
Proof.
  unfold payoutValue. cbv zeta.
  pose proof (wrap32_range
    (L * FHE.wrap32 (10000 - FHE.wrap32 (FHE.wrap32 (R - 1) * 2500)))) as Hw.
  change (2 ^ 32) with 4294967296 in Hw.
  split.
  - apply Z.div_pos; lia.
  - apply Z.lt_succ_r. apply Z.div_lt_upper_bound; lia.
Qed.

(** X10.  The risk level is not validated.  For a stored claim with any risk
    level R the payout percent the contract uses is (12500 - 2500 * R) mod
    2^32: risk level 4 pays 25 percent, risk level 5 pays nothing whatever the
    loss amount, and risk level 0 applies 125 percent. *)
Theorem evaluateClaim_unvalidated_risk sender claimId s :
  claimExists s claimId = true ->
  exists s' h,
    evaluateClaim sender claimId s = Ok (tt, s') /\
    getPayout s' claimId = Ok h /\
    let L := FHE.decrypt (lossAmount (claimAt s claimId)) in
    let R := FHE.decrypt (riskLevel (claimAt s claimId)) in
    FHE.decrypt h = FHE.wrap32 (L * FHE.wrap32 (12500 - 2500 * R)) / 10000 /\
    (R = 0 -> FHE.decrypt h = FHE.wrap32 (L * 12500) / 10000) /\
    (R = 4 -> FHE.decrypt h = FHE.wrap32 (L * 2500) / 10000) /\
    (R = 5 -> FHE.decrypt h = 0).
Proof.
  unfold claimExists. intros Hex.
  exists (afterEvaluate sender claimId s), (computedPayout (claimAt s claimId)).
  split; [now apply evaluateClaim_existing |].
  split; [now apply getPayout_afterEvaluate |].
  cbv zeta. rewrite decrypt_computedPayout, payoutValue_any_risk.
  split; [reflexivity |].
  split; [| split]; intros ->; simpl.
  - reflexivity.
  - reflexivity.
  - now rewrite Z.mul_0_r.
Qed.

(** X11.  Whatever the encrypted inputs, the payout stored by an evaluation
    decrypts to a value between 0 and 429,496: the numerator is a 32-bit
    value and is divided by 10000. *)
Theorem evaluateClaim_payout_bounded sender claimId s s' :
  evaluateClaim sender claimId s = Ok (tt, s') ->
  exists h, getPayout s' claimId = Ok h /\ 0 <= FHE.decrypt h <= 429496.
Proof.
  intros H. apply evaluateClaim_Ok in H as (Hex & ->).
  exists (computedPayout (claimAt s claimId)).
  split; [now apply getPayout_afterEvaluate |].
  rewrite decrypt_computedPayout. apply payoutValue_bound.
Qed.

(** X12.  For a stored claim whose risk level is 1, 2 or 3 the payout never
    exceeds the loss amount, with or without wrap-around of the product. *)
Theorem evaluateClaim_payout_at_most_loss sender claimId s s' :
  reachable s ->
  evaluateClaim sender claimId s = Ok (tt, s') ->
  (let R := FHE.decrypt (riskLevel (claimAt s claimId)) in R = 1 \/ R = 2 \/ R = 3) ->
  exists h,
    getPayout s' claimId = Ok h /\
    FHE.decrypt h <= FHE.decrypt (lossAmount (claimAt s claimId)).
Proof.
  intros Hreach H HR. apply evaluateClaim_Ok in H as (Hex & ->).
  exists (computedPayout (claimAt s claimId)).
  split; [now apply getPayout_afterEvaluate |].
  rewrite decrypt_computedPayout, payoutValue_risk by exact HR.
  pose proof (reachable_loss_range s claimId Hreach Hex) as [HL _].
  set (L := FHE.decrypt (lossAmount (claimAt s claimId))) in *.
  set (R := FHE.decrypt (riskLevel (claimAt s claimId))) in *.
  assert (Hpct : 0 < payoutPercentOf R <= 10000)
    by (destruct HR as [-> | [-> | ->]]; split; (reflexivity || discriminate)).
  assert (Hmod : FHE.wrap32 (L * payoutPercentOf R) <= L * payoutPercentOf R).
  { unfold FHE.wrap32. apply Z.mod_le; [nia | reflexivity]. }
  apply Z.div_le_upper_bound; [lia | nia].
Qed.

(** X13.  Evaluating a claim again, by any caller, right after an evaluation
    rewrites the same payout handle: the claims mapping and the counter are
    as after the first evaluation, the only new grant is the second caller's
    on that handle, and one more [ClaimEvaluated] event is logged.  When the
    same caller repeats the call the grants do not change at all. *)
Theorem evaluateClaim_again a b claimId s s1 :
  evaluateClaim a claimId s = Ok (tt, s1) ->
  exists s2 h,
    evaluateClaim b claimId s1 = Ok (tt, s2) /\
    getPayout s1 claimId = Ok h /\
    getPayout s2 claimId = Ok h /\
    claims s2 = claims s1 /\
    getClaimCount s2 = getClaimCount s1 /\
    acl s2 = {[ (h, b) ]} ∪ acl s1 /\
    (b = a -> acl s2 = acl s1) /\
    logs s2 = logs s1 ++ [ClaimEvaluated claimId].
Proof.
  clear verifyInput.
  intros H. apply evaluateClaim_Ok in H as (Hex & ->).
  set (s1 := afterEvaluate a claimId s).
  set (h := computedPayout (claimAt s claimId)).
  assert (Hc1 : claimAt s1 claimId =
                mkClaim (lossAmount (claimAt s claimId)) (riskLevel (claimAt s claimId)) h true).
  { unfold s1. rewrite claimAt_afterEvaluate.
    destruct (decide (claimId = claimId)); [reflexivity | congruence]. }
  assert (Hex1 : exists_ (claimAt s1 claimId) = true) by now rewrite Hc1.
  assert (Hh : computedPayout (claimAt s1 claimId) = h).
  { unfold h. apply computedPayout_inputs; now rewrite Hc1. }
  exists (afterEvaluate b claimId s1), h.
  split; [now apply evaluateClaim_existing |].
  split; [now apply getPayout_afterEvaluate |].
  split; [rewrite <- Hh; now apply getPayout_afterEvaluate |].
  unfold afterEvaluate at 1 2 3 4 5. cbv zeta. simpl. rewrite Hh, Hc1. simpl.
  split; [unfold s1, afterEvaluate; simpl; fold h; now rewrite insert_insert_eq |].
  split; [reflexivity |].
  unfold FHE.allow.
  split; [unfold s1, afterEvaluate, FHE.allow; simpl; fold h;
          apply set_eq; intros x; rewrite !elem_of_union; tauto |].
  split; [| reflexivity].
  intros ->. unfold s1, afterEvaluate, FHE.allow; simpl; fold h.
  apply set_eq; intros x; rewrite !elem_of_union; tauto.
Qed.

Lemma exec_evaluate sender claimId s :
  exec (sender, EvaluateClaim claimId) s =
  if exists_ (claimAt s claimId) then afterEvaluate sender claimId s else s.
Proof.
  simpl. rewrite evaluateClaim_eq.
  destruct (exists_ (claimAt s claimId)); reflexivity.
Qed.

Lemma claimAt_afterEvaluate_ne sender i j s :
  i <> j -> claimAt (afterEvaluate sender i s) j = claimAt s j.
Proof.
  intros Hne. rewrite claimAt_afterEvaluate.
  destruct (decide (i = j)); [congruence | reflexivity].
Qed.

(** X14.  Evaluations of two different claims commute: in either order they
    leave the same claims mapping, the same counter and the same grants;
    only the order of the two events in the log differs.  This holds in every
    state, whether or not the two ids exist. *)
Theorem evaluations_commute a b i j s :
  i <> j ->
  let s_ij := exec (b, EvaluateClaim j) (exec (a, EvaluateClaim i) s) in
  let s_ji := exec (a, EvaluateClaim i) (exec (b, EvaluateClaim j) s) in
  claims s_ij = claims s_ji /\
  getClaimCount s_ij = getClaimCount s_ji /\
  acl s_ij = acl s_ji.
Proof.
  intros Hne. cbv zeta. rewrite !exec_evaluate.
  destruct (exists_ (claimAt s i)) eqn:Ei; destruct (exists_ (claimAt s j)) eqn:Ej;
    rewrite ?claimAt_afterEvaluate_ne by congruence; rewrite ?Ei, ?Ej; auto.
  unfold afterEvaluate at 1 3. cbv zeta. simpl.
  rewrite !claimAt_afterEvaluate_ne by congruence.
  split; [unfold afterEvaluate; simpl; apply insert_insert_ne; congruence |].
  split; [reflexivity |].
  unfold afterEvaluate, FHE.allow; simpl.
  apply set_eq; intros x; rewrite !elem_of_union; tauto.
Qed.

(** X15.  The delay loop adds up the loop indices: after n iterations from
    zero the sum is the triangular number n * (n - 1) / 2 (for n below 2^128,
    where the wrapping [add] does not wrap), so the sum is zero only when the
    loop runs at most once. *)
Theorem delayLoop_triangular n :
  (N.of_nat n < 2 ^ 128)%N ->
  delayLoop n 0%N 0%N = (N.of_nat n * (N.of_nat n - 1) / 2)%N /\
  (delayLoop n 0%N 0%N = 0%N <-> (n <= 1)%nat).
Proof.
  intros Hn. set (k := N.of_nat n) in *.
  assert (Hsq : (k * k < 2 ^ 128 * 2 ^ 128)%N) by (apply N.mul_lt_mono; exact Hn).
  assert (Hp : (2 ^ 128 * 2 ^ 128 = 2 ^ 256)%N) by reflexivity.
  assert (Hp' : (2 ^ 257 = 2 * 2 ^ 256)%N) by reflexivity.
  assert (Hle : (k * (k - 1) <= k * k)%N) by (apply N.mul_le_mono_l; lia).
  pose proof (delayLoop_closed_form n 0%N 0%N) as Hcf. fold k in Hcf.
  assert (H2 : (2 * delayLoop n 0 0 = k * (k - 1))%N) by (rewrite Hcf; lia).
  assert (Hval : delayLoop n 0%N 0%N = (k * (k - 1) / 2)%N).
  { rewrite <- H2. rewrite N.mul_comm, N.div_mul by lia. reflexivity. }
  split; [exact Hval |].
  split.
  - intros Hz. rewrite Hz in H2.
    assert (Hk : (k = 0 \/ k - 1 = 0)%N) by (apply N.eq_mul_0; lia).
    unfold k in Hk. lia.
  - intros Hsmall. assert (Hk : (k * (k - 1) = 0)%N) by (unfold k; nia). lia.
Qed.

(** A handle of a stored claim on which the contract issues grants. *)
Definition grantable (s : State) (h : euint32) : Prop :=
  exists claimId,
    exists_ (claimAt s claimId) = true /\
    (h = lossAmount (claimAt s claimId) \/
     h = riskLevel (claimAt s claimId) \/
     h = computedPayout (claimAt s claimId)).

Lemma grantable_exec tx s h : ledger_inv s -> grantable s h -> grantable (exec tx s) h.
Proof.
  intros Hinv (j & Hj & Hh). exists j.
  split; [now apply exists_exec |].
  destruct (inputs_exec tx s j Hinv Hj) as [El Er].
  rewrite El, Er, (computedPayout_inputs _ _ El Er). exact Hh.
Qed.

(** X16.  In every reachable state every grant is on a handle of a stored
    claim: its loss amount, its risk level or the payout computed from them.
    The intermediate handles of the pipeline and the encrypted zero of
    submission are never granted to anyone. *)
Theorem grants_are_on_claim_handles s h q :
  reachable s ->
  (h, q) ∈ acl s ->
  exists claimId,
    claimExists s claimId = true /\
    (h = lossAmount (claimAt s claimId) \/
     h = riskLevel (claimAt s claimId) \/
     h = computedPayout (claimAt s claimId)).
Proof.
  intros Hreach. revert h q. change (forall h q, (h, q) ∈ acl s -> grantable s h).
  revert s Hreach.
  apply (reachable_ind (fun s => forall h q, (h, q) ∈ acl s -> grantable s h)).
  - intros h q Hin. simpl in Hin. set_solver.
  - intros tx s Hreach IH h q.
    pose proof (reachable_ledger_inv s Hreach) as Hinv.
    pose proof (grantable_exec tx s) as Hkeep.
    destruct (exec_cases tx s) as [E | [(a & l & r & p & -> & _ & E) | (a & i & -> & Hex & E)]];
      rewrite E in *.
    + apply IH.
    + assert (Hnew : claimAt (afterSubmit a l r s) (claimCounter s) =
                     mkClaim (Verified l) (Verified r) (FHE.asEuint32 0) true).
      { rewrite claimAt_afterSubmit.
        destruct (decide (claimCounter s = claimCounter s)); [reflexivity | congruence]. }
      unfold afterSubmit at 1, submitGrants, FHE.allow; simpl.
      rewrite !elem_of_union, !elem_of_singleton.
      intros [Eq | [Eq | [Eq | [Eq | Hin]]]];
        try (injection Eq as -> _; exists (claimCounter s); rewrite Hnew; simpl; auto).
      apply Hkeep; [exact Hinv | eapply IH, Hin].
    + assert (Hnew : claimAt (afterEvaluate a i s) i =
                     mkClaim (lossAmount (claimAt s i)) (riskLevel (claimAt s i))
                             (computedPayout (claimAt s i)) true).
      { rewrite claimAt_afterEvaluate.
        destruct (decide (i = i)); [reflexivity | congruence]. }
      unfold afterEvaluate at 1, FHE.allow; simpl.
      rewrite !elem_of_union, !elem_of_singleton.
      intros [Eq | [Eq | Hin]];
        try (injection Eq as -> _; exists i; rewrite Hnew; simpl;
             split; [reflexivity | right; right; now apply computedPayout_inputs]).
      apply Hkeep; [exact Hinv | eapply IH, Hin].
Qed.

Lemma payout_zero_or_computed s claimId :
  reachable s -> exists_ (claimAt s claimId) = true ->
  payout (claimAt s claimId) = FHE.asEuint32 0 \/
  payout (claimAt s claimId) = computedPayout (claimAt s claimId).
Proof.
  revert s.
  apply (reachable_ind (fun s =>
    exists_ (claimAt s claimId) = true ->
    payout (claimAt s claimId) = FHE.asEuint32 0 \/
    payout (claimAt s claimId) = computedPayout (claimAt s claimId))).
  - unfold claimAt; simpl. rewrite lookup_empty. discriminate.
  - intros tx s Hreach IH.
    destruct (exec_cases tx s) as [-> | [(a & l & r & p & _ & _ & ->) | (a & i & _ & Hex & ->)]].
    + exact IH.
    + rewrite claimAt_afterSubmit.
      destruct (decide (claimCounter s = claimId)); [simpl; auto | exact IH].
    + rewrite claimAt_afterEvaluate.
      destruct (decide (i = claimId)) as [<- | Hne]; [| exact IH].
      simpl. intros _. right. now apply computedPayout_inputs.
Qed.

(** X17.  In every reachable state the three handles of a stored claim
    decrypt into the unsigned 32-bit domain, and the stored payout decrypts
    to at most 429,496, whether or not the claim was evaluated. *)
Theorem stored_values_in_range s claimId :
  reachable s ->
  claimExists s claimId = true ->
  exists hl hr hp,
    getClaim s claimId = Ok (hl, hr, hp) /\
    0 <= FHE.decrypt hl < 2 ^ 32 /\
    0 <= FHE.decrypt hr < 2 ^ 32 /\
    0 <= FHE.decrypt hp <= 429496.
Proof.
  unfold claimExists. intros Hreach Hex.
  exists (lossAmount (claimAt s claimId)), (riskLevel (claimAt s claimId)),
         (payout (claimAt s claimId)).
  split; [unfold getClaim, view; now rewrite Hex |].
  destruct (reachable_inputs_inv s Hreach claimId Hex) as (l & r & El & Er).
  split; [rewrite El; apply wrap32_range |].
  split; [rewrite Er; apply wrap32_range |].
  destruct (payout_zero_or_computed s claimId Hreach Hex) as [-> | ->].
  - change (FHE.decrypt (FHE.asEuint32 0)) with 0. lia.
  - rewrite decrypt_computedPayout. apply payoutValue_bound.
Qed.

End ClaimEvaluator.

(** ** Worked scenarios

    The theorems above, applied to concrete ledgers of the deployment
    [contractAddress] with the verifier [nonEmptyProof]. *)

Local Abbreviation run0 := (run contractAddress nonEmptyProof).
Local Abbreviation exec0 := (exec contractAddress nonEmptyProof).
Local Abbreviation reachable0 := (reachable contractAddress nonEmptyProof).

(** One claim of 0.01 ETH (10,000,000 gwei) at high risk. *)
Local Abbreviation ledgerHigh := (run0 [submitTx alice 0 10000000 3] initial).

(** One claim of 429,497 gwei at low risk. *)
Local Abbreviation ledgerLow := (run0 [submitTx alice 0 429497 1] initial).

(** Two claims, of 500 gwei at high risk and of 1200 gwei at medium risk. *)
Local Abbreviation ledgerTwo :=
  (run0 [submitTx alice 0 500 3; submitTx bob 1 1200 2] initial).

(** The loss amount 10,000,000 at risk level 3: the formula gives 5,000,000,
    the contract stores 275,535. *)
Lemma evaluateClaim_payout_formula_witness :
  reachable0 ledgerHigh /\
  claimExists ledgerHigh 0%N = true /\
  exists s' h,
    evaluateClaim contractAddress bob 0%N ledgerHigh = Ok (tt, s') /\
    getPayout s' 0%N = Ok h /\
    FHE.decrypt h = 275535 /\
    spec_payout 10000000 3 = 5000000 /\
    ~ (10000000 * payoutPercentOf 3 < 2 ^ 32).
Proof.
  assert (Hreach : reachable0 ledgerHigh) by (eexists; reflexivity).
  split; [exact Hreach |]. split; [reflexivity |].
  destruct (evaluateClaim_payout_formula contractAddress nonEmptyProof ledgerHigh bob 0%N
              Hreach eq_refl)
    as (s' & h & Hev & Hget & Hval & _).
  { right; right. reflexivity. }
  exists s', h.
  split; [exact Hev |]. split; [exact Hget |].
  split; [rewrite Hval; reflexivity |].
  split; [reflexivity |]. vm_compute. intros H; discriminate H.
Defined.

(** The scenario of the specification with a verifying proof. *)
Lemma scenario_medium_risk_wraps_witness :
  nonEmptyProof alice (lossInput 0 1000000000) someProof = true /\
  nonEmptyProof alice (riskInput 0 2) someProof = true /\
  exists s1 s2 h,
    submitClaim contractAddress nonEmptyProof alice
      (lossInput 0 1000000000) (riskInput 0 2) someProof initial = Ok (0%N, s1) /\
    evaluateClaim contractAddress alice 0%N s1 = Ok (tt, s2) /\
    getPayout s2 0%N = Ok h /\
    FHE.decrypt h = 98710 /\
    spec_payout 1000000000 2 = 750000000.
Proof.
  split; [reflexivity |]. split; [reflexivity |].
  apply (scenario_medium_risk_wraps contractAddress nonEmptyProof alice alice
           (lossInput 0 1000000000) (riskInput 0 2) someProof); reflexivity.
Defined.

(** The smallest loss amount whose low-risk payout is not the loss amount. *)
Lemma evaluateClaim_low_risk_witness :
  reachable0 ledgerLow /\
  claimExists ledgerLow 0%N = true /\
  FHE.decrypt (riskLevel (claimAt ledgerLow 0%N)) = 1 /\
  exists s' h,
    evaluateClaim contractAddress alice 0%N ledgerLow = Ok (tt, s') /\
    getPayout s' 0%N = Ok h /\
    FHE.decrypt h = 0 /\
    FHE.decrypt (lossAmount (claimAt ledgerLow 0%N)) = 429497.
Proof.
  assert (Hreach : reachable0 ledgerLow) by (eexists; reflexivity).
  split; [exact Hreach |]. split; [reflexivity |]. split; [reflexivity |].
  destruct (evaluateClaim_low_risk contractAddress nonEmptyProof ledgerLow alice 0%N
              Hreach eq_refl eq_refl)
    as (s' & h & Hev & Hget & Hval & _).
  exists s', h.
  split; [exact Hev |]. split; [exact Hget |].
  split; [rewrite Hval; reflexivity | reflexivity].
Defined.

Lemma submitClaim_sequential_ids_witness :
  nonEmptyProof bob (lossInput 2 700) someProof = true /\
  nonEmptyProof bob (riskInput 2 1) someProof = true /\
  (getClaimCount ledgerTwo < MAX_UINT256)%N /\
  exists s',
    submitClaim contractAddress nonEmptyProof bob (lossInput 2 700) (riskInput 2 1)
      someProof ledgerTwo = Ok (2%N, s') /\
    getClaimCount s' = 3%N.
Proof.
  split; [reflexivity |]. split; [reflexivity |]. split; [reflexivity |].
  destruct (submitClaim_sequential_ids contractAddress nonEmptyProof bob
              (lossInput 2 700) (riskInput 2 1) someProof ledgerTwo
              eq_refl eq_refl eq_refl)
    as (s' & Hsub & Hcount & _).
  exists s'. split; [exact Hsub | exact Hcount].
Defined.

Lemma claimExists_iff_below_count_witness :
  reachable0 ledgerTwo /\
  (claimExists ledgerTwo 1%N = true <-> (0 <= 1 < getClaimCount ledgerTwo)%N) /\
  (claimExists ledgerTwo 2%N = true <-> (0 <= 2 < getClaimCount ledgerTwo)%N).
Proof.
  assert (Hreach : reachable0 ledgerTwo) by (eexists; reflexivity).
  split; [exact Hreach |].
  destruct (claimExists_iff_below_count contractAddress nonEmptyProof ledgerTwo Hreach)
    as [Hiff _].
  split; apply Hiff.
Defined.

Lemma not_found_iff_missing_witness :
  claimExists ledgerTwo 2%N = false /\
  evaluateClaim contractAddress alice 2%N ledgerTwo = Revert NotFound /\
  getPayout ledgerTwo 2%N = Revert NotFound /\
  exec0 (alice, EvaluateClaim 2%N) ledgerTwo = ledgerTwo.
Proof.
  destruct (not_found_iff_missing contractAddress nonEmptyProof ledgerTwo alice 2%N)
    as (_ & Hmissing & _ & Hatomic).
  destruct (Hmissing eq_refl) as (Hev & _ & _ & Hget & _).
  split; [reflexivity |]. split; [exact Hev |]. split; [exact Hget |].
  exact (Hatomic NotFound Hev).
Defined.

Lemma evaluateClaim_repeatable_witness :
  let s1 := exec0 (alice, EvaluateClaim 0%N) ledgerTwo in
  let txs := [submitTx alice 2 9000 1; (bob, EvaluateClaim 1%N)] in
  let s3 := exec0 (bob, EvaluateClaim 0%N) (run0 txs s1) in
  reachable0 ledgerTwo /\
  evaluateClaim contractAddress alice 0%N ledgerTwo = Ok (tt, s1) /\
  evaluateClaim contractAddress bob 0%N (run0 txs s1) = Ok (tt, s3) /\
  exists h1 h3,
    getPayout s1 0%N = Ok h1 /\ getPayout s3 0%N = Ok h3 /\
    FHE.decrypt h1 = FHE.decrypt h3 /\ FHE.decrypt h1 = 250.
Proof.
  intros s1 txs s3.
  assert (Hreach : reachable0 ledgerTwo) by (eexists; reflexivity).
  assert (H1 : evaluateClaim contractAddress alice 0%N ledgerTwo = Ok (tt, s1))
    by (vm_compute; reflexivity).
  assert (H3 : evaluateClaim contractAddress bob 0%N (run0 txs s1) = Ok (tt, s3))
    by (vm_compute; reflexivity).
  split; [exact Hreach |]. split; [exact H1 |]. split; [exact H3 |].
  destruct (evaluateClaim_repeatable contractAddress nonEmptyProof ledgerTwo alice bob 0%N
              txs s1 s3 Hreach H1 H3)
    as (h1 & h3 & Hg1 & Hg3 & Heq & Hval).
  exists h1, h3.
  split; [exact Hg1 |]. split; [exact Hg3 |]. split; [exact Heq | exact Hval].
Defined.

Lemma evaluateClaim_frame_witness :
  let s' := exec0 (bob, EvaluateClaim 1%N) ledgerTwo in
  evaluateClaim contractAddress bob 1%N ledgerTwo = Ok (tt, s') /\
  lossAmount (claimAt s' 1%N) = lossAmount (claimAt ledgerTwo 1%N) /\
  riskLevel (claimAt s' 1%N) = riskLevel (claimAt ledgerTwo 1%N) /\
  claims s' !! 0%N = claims ledgerTwo !! 0%N /\
  getClaimCount s' = getClaimCount ledgerTwo.
Proof.
  intros s'.
  assert (Hev : evaluateClaim contractAddress bob 1%N ledgerTwo = Ok (tt, s'))
    by (vm_compute; reflexivity).
  destruct (evaluateClaim_frame contractAddress bob 1%N ledgerTwo s' Hev)
    as (Hl & Hr & _ & Hother & _ & Hcount).
  split; [exact Hev |]. split; [exact Hl |]. split; [exact Hr |].
  split; [apply Hother; discriminate | exact Hcount].
Defined.

Lemma submitClaim_payout_ungranted_witness :
  let s' := exec0 (submitTx alice 2 9000 1) ledgerTwo in
  let txs := [(bob, EvaluateClaim 0%N); submitTx bob 3 40 2] in
  reachable0 ledgerTwo /\
  submitClaim contractAddress nonEmptyProof alice (lossInput 2 9000) (riskInput 2 1)
    someProof ledgerTwo = Ok (2%N, s') /\
  Forall (fun tx => ~ evaluates 2%N tx) txs /\
  getPayout (run0 txs s') 2%N = Ok (FHE.asEuint32 0) /\
  FHE.isAllowed (FHE.asEuint32 0) contractAddress (acl (run0 txs s')) = false /\
  FHE.isAllowed (FHE.asEuint32 0) alice (acl (run0 txs s')) = false.
Proof.
  intros s' txs.
  assert (Hreach : reachable0 ledgerTwo) by (eexists; reflexivity).
  assert (Hsub : submitClaim contractAddress nonEmptyProof alice (lossInput 2 9000)
                   (riskInput 2 1) someProof ledgerTwo = Ok (2%N, s'))
    by (vm_compute; reflexivity).
  assert (Hall : Forall (fun tx => ~ evaluates 2%N tx) txs).
  { repeat constructor; simpl; [discriminate | tauto]. }
  destruct (submitClaim_payout_ungranted contractAddress nonEmptyProof ledgerTwo alice
              (lossInput 2 9000) (riskInput 2 1) someProof 2%N s' Hreach Hsub)
    as (_ & Huntil).
  destruct (Huntil txs Hall) as (Hget & Hno).
  split; [exact Hreach |]. split; [exact Hsub |]. split; [exact Hall |].
  split; [exact Hget |]. split; apply Hno.
Defined.

(** ** Worked scenarios for the further properties *)

(** The two claims of [ledgerTwo], after [bob] evaluated the first. *)
Local Abbreviation ledgerEvaluated :=
  (run0 [submitTx alice 0 500 3; submitTx bob 1 1200 2; (bob, EvaluateClaim 0%N)] initial).

(** One claim of 1000 gwei at the unlisted risk level 5. *)
Local Abbreviation ledgerRiskFive := (run0 [submitTx alice 0 1000 5] initial).

(** A ledger whose counter holds the largest uint256. *)
Local Abbreviation ledgerFull := (mkState ∅ MAX_UINT256 ∅ []).

Lemma submitClaim_rejects_invalid_proof_witness :
  (nonEmptyProof alice (lossInput 2 700) [] = false \/
   nonEmptyProof alice (riskInput 2 1) [] = false) /\
  submitClaim contractAddress nonEmptyProof alice (lossInput 2 700) (riskInput 2 1) []
    ledgerTwo = Revert InvalidInputProof /\
  getClaimCount (exec0 (alice, SubmitClaim (lossInput 2 700) (riskInput 2 1) []) ledgerTwo)
  = getClaimCount ledgerTwo.
Proof.
  assert (H : nonEmptyProof alice (lossInput 2 700) [] = false \/
              nonEmptyProof alice (riskInput 2 1) [] = false) by (left; reflexivity).
  split; [exact H |].
  destruct (submitClaim_rejects_invalid_proof contractAddress nonEmptyProof alice
              (lossInput 2 700) (riskInput 2 1) [] ledgerTwo H) as (Hrev & _ & Hcount).
  split; [exact Hrev | exact Hcount].
Defined.

Lemma submitClaim_counter_overflow_witness :
  claimCounter ledgerFull = MAX_UINT256 /\
  submitClaim contractAddress nonEmptyProof alice (lossInput 0 700) (riskInput 0 1) someProof
    ledgerFull = Revert (Panic ARITHMETIC_OVERFLOW) /\
  exec0 (alice, SubmitClaim (lossInput 0 700) (riskInput 0 1) someProof) ledgerFull
  = ledgerFull.
Proof.
  split; [reflexivity |].
  apply (submitClaim_counter_overflow contractAddress nonEmptyProof alice
           (lossInput 0 700) (riskInput 0 1) someProof ledgerFull); reflexivity.
Defined.

Lemma claims_domain_is_count_witness :
  reachable0 ledgerEvaluated /\
  size (claims ledgerEvaluated) = 2%nat /\
  (is_Some (claims ledgerEvaluated !! 2%N) <-> (2 < getClaimCount ledgerEvaluated)%N).
Proof.
  assert (Hreach : reachable0 ledgerEvaluated) by (eexists; reflexivity).
  split; [exact Hreach |].
  destruct (claims_domain_is_count contractAddress nonEmptyProof ledgerEvaluated Hreach)
    as (Hdom & Hsize & _).
  split; [exact Hsize | apply Hdom].
Defined.

Lemma submitted_events_are_sequential_witness :
  reachable0 ledgerEvaluated /\
  submittedIds (logs ledgerEvaluated) = [0%N; 1%N].
Proof.
  assert (Hreach : reachable0 ledgerEvaluated) by (eexists; reflexivity).
  split; [exact Hreach |].
  exact (submitted_events_are_sequential contractAddress nonEmptyProof ledgerEvaluated Hreach).
Defined.

Lemma payout_reflects_evaluation_witness :
  reachable0 ledgerEvaluated /\
  claimExists ledgerEvaluated 1%N = true /\
  (((ClaimEvaluated 1%N ∈ logs ledgerEvaluated) /\
    payout (claimAt ledgerEvaluated 1%N) = computedPayout (claimAt ledgerEvaluated 1%N)) \/
   ((ClaimEvaluated 1%N ∉ logs ledgerEvaluated) /\
    payout (claimAt ledgerEvaluated 1%N) = FHE.asEuint32 0)).
Proof.
  assert (Hreach : reachable0 ledgerEvaluated) by (eexists; reflexivity).
  split; [exact Hreach |]. split; [reflexivity |].
  destruct (payout_reflects_evaluation contractAddress nonEmptyProof ledgerEvaluated 1%N Hreach)
    as [_ Hyes].
  exact (Hyes eq_refl).
Defined.

Lemma evaluateClaim_grants_caller_only_witness :
  let s' := exec0 (bob, EvaluateClaim 0%N) ledgerTwo in
  evaluateClaim contractAddress bob 0%N ledgerTwo = Ok (tt, s') /\
  exists h,
    getPayout s' 0%N = Ok h /\
    FHE.isAllowed h contractAddress (acl s') = true /\
    FHE.isAllowed h bob (acl s') = true.
Proof.
  intros s'.
  assert (Hev : evaluateClaim contractAddress bob 0%N ledgerTwo = Ok (tt, s'))
    by (vm_compute; reflexivity).
  split; [exact Hev |].
  destruct (evaluateClaim_grants_caller_only contractAddress bob 0%N ledgerTwo s' Hev)
    as (h & Hget & Hthis & Hcaller & _).
  exists h. split; [exact Hget |]. split; [exact Hthis | exact Hcaller].
Defined.

Lemma submitter_keeps_access_witness :
  let s' := exec0 (submitTx alice 2 9000 1) ledgerTwo in
  let txs := [(bob, EvaluateClaim 2%N); submitTx bob 3 40 2] in
  reachable0 ledgerTwo /\
  submitClaim contractAddress nonEmptyProof alice (lossInput 2 9000) (riskInput 2 1)
    someProof ledgerTwo = Ok (2%N, s') /\
  getLossAmount (run0 txs s') 2%N = Ok (Verified (lossInput 2 9000)) /\
  FHE.isAllowed (Verified (lossInput 2 9000)) alice (acl (run0 txs s')) = true.
Proof.
  intros s' txs.
  assert (Hreach : reachable0 ledgerTwo) by (eexists; reflexivity).
  assert (Hsub : submitClaim contractAddress nonEmptyProof alice (lossInput 2 9000)
                   (riskInput 2 1) someProof ledgerTwo = Ok (2%N, s'))
    by (vm_compute; reflexivity).
  split; [exact Hreach |]. split; [exact Hsub |].
  destruct (submitter_keeps_access contractAddress nonEmptyProof ledgerTwo alice
              (lossInput 2 9000) (riskInput 2 1) someProof 2%N s' txs Hreach Hsub)
    as (Hloss & _ & Hallowed & _).
  split; [exact Hloss | exact Hallowed].
Defined.


Lemma evaluateClaim_unvalidated_risk_witness :
  claimExists ledgerRiskFive 0%N = true /\
  FHE.decrypt (riskLevel (claimAt ledgerRiskFive 0%N)) = 5 /\
  exists s' h,
    evaluateClaim contractAddress alice 0%N ledgerRiskFive = Ok (tt, s') /\
    getPayout s' 0%N = Ok h /\
    FHE.decrypt h = 0.
Proof.
  split; [reflexivity |]. split; [reflexivity |].
  destruct (evaluateClaim_unvalidated_risk contractAddress alice 0%N ledgerRiskFive eq_refl)
    as (s' & h & Hev & Hget & _ & _ & _ & Hfive).
  exists s', h. split; [exact Hev |]. split; [exact Hget |].
  apply Hfive. reflexivity.
Defined.

Lemma evaluateClaim_payout_bounded_witness :
  let s' := exec0 (bob, EvaluateClaim 0%N) ledgerHigh in
  evaluateClaim contractAddress bob 0%N ledgerHigh = Ok (tt, s') /\
  exists h, getPayout s' 0%N = Ok h /\ 0 <= FHE.decrypt h <= 429496.
Proof.
  intros s'.
  assert (Hev : evaluateClaim contractAddress bob 0%N ledgerHigh = Ok (tt, s'))
    by (vm_compute; reflexivity).
  split; [exact Hev |].
  exact (evaluateClaim_payout_bounded contractAddress bob 0%N ledgerHigh s' Hev).
Defined.

Lemma evaluateClaim_payout_at_most_loss_witness :
  let s' := exec0 (bob, EvaluateClaim 0%N) ledgerHigh in
  reachable0 ledgerHigh /\
  evaluateClaim contractAddress bob 0%N ledgerHigh = Ok (tt, s') /\
  FHE.decrypt (riskLevel (claimAt ledgerHigh 0%N)) = 3 /\
  exists h,
    getPayout s' 0%N = Ok h /\
    FHE.decrypt h <= FHE.decrypt (lossAmount (claimAt ledgerHigh 0%N)).
Proof.
  intros s'.
  assert (Hreach : reachable0 ledgerHigh) by (eexists; reflexivity).
  assert (Hev : evaluateClaim contractAddress bob 0%N ledgerHigh = Ok (tt, s'))
    by (vm_compute; reflexivity).
  split; [exact Hreach |]. split; [exact Hev |]. split; [reflexivity |].
  apply (evaluateClaim_payout_at_most_loss contractAddress nonEmptyProof bob 0%N
           ledgerHigh s' Hreach Hev).
  right; right. reflexivity.
Defined.

Lemma evaluateClaim_again_witness :
  let s1 := exec0 (alice, EvaluateClaim 1%N) ledgerTwo in
  evaluateClaim contractAddress alice 1%N ledgerTwo = Ok (tt, s1) /\
  exists s2,
    evaluateClaim contractAddress alice 1%N s1 = Ok (tt, s2) /\
    claims s2 = claims s1 /\ acl s2 = acl s1.
Proof.
  intros s1.
  assert (Hev : evaluateClaim contractAddress alice 1%N ledgerTwo = Ok (tt, s1))
    by (vm_compute; reflexivity).
  split; [exact Hev |].
  destruct (evaluateClaim_again contractAddress alice alice 1%N ledgerTwo s1 Hev)
    as (s2 & h & Hev2 & _ & _ & Hclaims & _ & _ & Hsame & _).
  exists s2. split; [exact Hev2 |]. split; [exact Hclaims | exact (Hsame eq_refl)].
Defined.

Lemma evaluations_commute_witness :
  0%N <> 1%N /\
  claims (exec0 (bob, EvaluateClaim 1%N) (exec0 (alice, EvaluateClaim 0%N) ledgerTwo)) =
  claims (exec0 (alice, EvaluateClaim 0%N) (exec0 (bob, EvaluateClaim 1%N) ledgerTwo)).
Proof.
  assert (Hne : 0%N <> 1%N) by discriminate.
  split; [exact Hne |].
  exact (proj1 (evaluations_commute contractAddress nonEmptyProof alice bob 0%N 1%N
                  ledgerTwo Hne)).
Defined.

Lemma delayLoop_triangular_witness :
  (N.of_nat 200 < 2 ^ 128)%N /\
  delayLoop 200 0%N 0%N = (N.of_nat 200 * (N.of_nat 200 - 1) / 2)%N.
Proof.
  assert (H : (N.of_nat 200 < 2 ^ 128)%N) by reflexivity.
  split; [exact H |].
  exact (proj1 (delayLoop_triangular 200 H)).
Defined.

Lemma grants_are_on_claim_handles_witness :
  reachable0 ledgerEvaluated /\
  (Verified (riskInput 1 2), bob) ∈ acl ledgerEvaluated /\
  exists claimId,
    claimExists ledgerEvaluated claimId = true /\
    (Verified (riskInput 1 2) = lossAmount (claimAt ledgerEvaluated claimId) \/
     Verified (riskInput 1 2) = riskLevel (claimAt ledgerEvaluated claimId) \/
     Verified (riskInput 1 2) = computedPayout (claimAt ledgerEvaluated claimId)).
Proof.
  assert (Hreach : reachable0 ledgerEvaluated) by (eexists; reflexivity).
  assert (Hin : (Verified (riskInput 1 2), bob) ∈ acl ledgerEvaluated).
  { assert (Hb : FHE.isAllowed (Verified (riskInput 1 2)) bob (acl ledgerEvaluated) = true)
      by (vm_compute; reflexivity).
    exact (bool_decide_eq_true_1 _ Hb). }
  split; [exact Hreach |]. split; [exact Hin |].
  exact (grants_are_on_claim_handles contractAddress nonEmptyProof ledgerEvaluated
           (Verified (riskInput 1 2)) bob Hreach Hin).
Defined.

Lemma stored_values_in_range_witness :
  reachable0 ledgerEvaluated /\
  claimExists ledgerEvaluated 0%N = true /\
  exists hl hr hp,
    getClaim ledgerEvaluated 0%N = Ok (hl, hr, hp) /\
    0 <= FHE.decrypt hl < 2 ^ 32 /\
    0 <= FHE.decrypt hr < 2 ^ 32 /\
    0 <= FHE.decrypt hp <= 429496.
Proof.
  assert (Hreach : reachable0 ledgerEvaluated) by (eexists; reflexivity).
  split; [exact Hreach |]. split; [reflexivity |].
  exact (stored_values_in_range contractAddress nonEmptyProof ledgerEvaluated 0%N
           Hreach eq_refl).
Defined.
